(** * iptv-my: a shallow embedding of [main.py]

    The script fetches an index document, extracts named playlist links
    from it with a regular expression, downloads every playlist, probes
    every URL of every playlist and writes two files per playlist.

    Python [str] values are modelled as lists of Unicode code points,
    the [re] module by a small backtracking matcher, the network by an
    oracle threaded through an abstract world, the file system and the
    log by explicit state. *)

From Stdlib Require Import String Ascii DecimalString.
From Stdlib Require Import List NArith Arith Bool Lia Permutation.
Import ListNotations.

Set Implicit Arguments.

(** ** Python strings *)

Module PyStr.

(** A code point. *)
Definition char := N.

(** A Python [str]: a sequence of code points. *)
Definition str := list char.

(** An ASCII literal read as a [str]. *)
Definition lit (s : string) : str :=
  map N_of_ascii (list_ascii_of_string s).

Definition LF : char := 10%N.
Definition CR : char := 13%N.
Definition underscore : char := 95%N.
Definition ampersand : char := 38%N.

(** [Py_UNICODE_ISSPACE]: the test behind [str.isspace], [str.strip]
    and the class [\s] of a [str] pattern. *)
Definition is_space (c : char) : bool :=
  ((9 <=? c) && (c <=? 13) || (28 <=? c) && (c <=? 32)
   || (c =? 133) || (c =? 160) || (c =? 5760)
   || (8192 <=? c) && (c <=? 8202)
   || (c =? 8232) || (c =? 8233) || (c =? 8239) || (c =? 8287)
   || (c =? 12288))%N.

(** [str.isalnum] on the ASCII range: digits and letters. *)
Definition ascii_alnum (c : char) : bool :=
  ((48 <=? c) && (c <=? 57) || (65 <=? c) && (c <=? 90)
   || (97 <=? c) && (c <=? 122))%N.

Fixpoint str_eqb (a b : str) : bool :=
  match a, b with
  | [], [] => true
  | x :: a', y :: b' => N.eqb x y && str_eqb a' b'
  | _, _ => false
  end.

(** [strip_prefix p s] is [Some rest] when [s = p ++ rest]. *)
Fixpoint strip_prefix (p s : str) : option str :=
  match p with
  | [] => Some s
  | x :: p' =>
      match s with
      | [] => None
      | y :: s' => if N.eqb x y then strip_prefix p' s' else None
      end
  end.

(** [s.startswith(p)]. *)
Definition startswith (p s : str) : bool :=
  match strip_prefix p s with Some _ => true | None => false end.

(** [s.endswith(p)]. *)
Definition endswith (p s : str) : bool :=
  startswith (rev p) (rev s).

Fixpoint lstrip (s : str) : str :=
  match s with
  | [] => []
  | c :: s' => if is_space c then lstrip s' else s
  end.

Definition rstrip (s : str) : str := rev (lstrip (rev s)).

(** [s.strip()]. *)
Definition strip (s : str) : str := rstrip (lstrip s).

(** [s.replace(old, new)] for a non-empty [old]: the occurrences of
    [old] are found from the left and do not overlap.  [skip] counts the
    characters of the occurrence just replaced that are still to be
    passed over. *)
Fixpoint replace_from (old new : str) (skip : nat) (s : str) : str :=
  match s with
  | [] => []
  | c :: s' =>
      match skip with
      | S n => replace_from old new n s'
      | O =>
          if startswith old s
          then new ++ replace_from old new (length old - 1) s'
          else c :: replace_from old new 0 s'
      end
  end.

Definition replace (old new s : str) : str := replace_from old new 0 s.

(** [sep.join(parts)]. *)
Fixpoint join (sep : str) (parts : list str) : str :=
  match parts with
  | [] => []
  | [p] => p
  | p :: rest => p ++ sep ++ join sep rest
  end.

(** [file.readlines()] of a file opened in text mode: universal
    newlines, so a line ends at LF, CR or CR LF and its terminator is
    read as LF.  [cur] is the current line, reversed. *)
Fixpoint readlines_from (cur : str) (s : str) : list str :=
  match s with
  | [] => match cur with [] => [] | _ => [rev cur] end
  | c :: s' =>
      if N.eqb c LF then rev (LF :: cur) :: readlines_from [] s'
      else if N.eqb c CR then
        match s' with
        | c2 :: s'' =>
            if N.eqb c2 LF then rev (LF :: cur) :: readlines_from [] s''
            else rev (LF :: cur) :: readlines_from [] s'
        | [] => [rev (LF :: cur)]
        end
      else readlines_from (c :: cur) s'
  end.

Definition readlines (s : str) : list str := readlines_from [] s.

(** [str(n)] for a natural number. *)
Definition str_of_nat (n : nat) : str :=
  lit (NilZero.string_of_uint (Nat.to_uint n)).

Definition str_of_N (n : N) : str := str_of_nat (N.to_nat n).

(** [os.path.join(a, b)] on a POSIX system. *)
Definition path_join (a b : str) : str :=
  if startswith (lit "/") b then b
  else if str_eqb a [] || endswith (lit "/") a then a ++ b
  else a ++ lit "/" ++ b.

End PyStr.

Import PyStr.

(** ** The fragment of Python's [re] that the script uses *)

Module Re.

(** Patterns.  Repetition is over a set of single characters, which is
    all the script's patterns need: [.+?], [.*?], [[^\s]+] and [\s+].
    [Star true p] is the greedy [p*], [Star false p] the lazy [p*?];
    [Alt] tries its left branch first; [Grp i r] is the capturing group
    number [i]. *)
Inductive regex : Type :=
| Eps : regex
| Lit : str -> regex
| Cls : (char -> bool) -> regex
| Seq : regex -> regex -> regex
| Alt : regex -> regex -> regex
| Star : bool -> (char -> bool) -> regex
| Grp : nat -> regex -> regex.

(** [r+] and [r+?] over a character set, and the greedy [r?]. *)
Definition Plus (greedy : bool) (p : char -> bool) : regex :=
  Seq (Cls p) (Star greedy p).
Definition Opt (r : regex) : regex := Alt r Eps.

(** [.] without [re.DOTALL]: any character but the line feed. *)
Definition dot (c : char) : bool := negb (N.eqb c LF).

(** [\s] and [[^\s]]. *)
Definition space : char -> bool := is_space.
Definition nonspace (c : char) : bool := negb (is_space c).

(** The groups captured so far, the latest binding first. *)
Definition captures := list (nat * str).

Fixpoint group (i : nat) (caps : captures) : str :=
  match caps with
  | [] => []
  | (j, w) :: rest => if Nat.eqb i j then w else group i rest
  end.

(** The outcome of a match: the text left after it and its groups. *)
Definition outcome := option (str * captures).

(** The text between the start [s] of a group and the suffix [s'] of [s]
    where the group ends. *)
Definition consumed (s s' : str) : str := firstn (length s - length s') s.

(** The lazy repetition gives the continuation the first try and takes
    one more character only when that fails. *)
Fixpoint star_lazy (p : char -> bool) (k : str -> outcome) (s : str)
  : outcome :=
  match k s with
  | Some res => Some res
  | None =>
      match s with
      | [] => None
      | c :: s' => if p c then star_lazy p k s' else None
      end
  end.

(** The greedy repetition takes characters while it can and gives them
    back one at a time while the continuation fails. *)
Fixpoint star_greedy (p : char -> bool) (k : str -> outcome) (s : str)
  : outcome :=
  match s with
  | [] => k s
  | c :: s' =>
      if p c then
        match star_greedy p k s' with
        | Some res => Some res
        | None => k s
        end
      else k s
  end.

(** The backtracking matcher, in continuation-passing style: [rmatch r s
    caps k] matches [r] at the start of [s] and hands the rest of the
    text and the groups to [k]; when [k] fails the next alternative of
    [r] is tried, in the order of priority of Python's engine. *)
Fixpoint rmatch (r : regex) (s : str) (caps : captures)
  (k : str -> captures -> outcome) : outcome :=
  match r with
  | Eps => k s caps
  | Lit w =>
      match strip_prefix w s with
      | Some s' => k s' caps
      | None => None
      end
  | Cls p =>
      match s with
      | c :: s' => if p c then k s' caps else None
      | [] => None
      end
  | Seq r1 r2 => rmatch r1 s caps (fun s1 c1 => rmatch r2 s1 c1 k)
  | Alt r1 r2 =>
      match rmatch r1 s caps k with
      | Some res => Some res
      | None => rmatch r2 s caps k
      end
  | Star true p => star_greedy p (fun s' => k s' caps) s
  | Star false p => star_lazy p (fun s' => k s' caps) s
  | Grp i r1 =>
      rmatch r1 s caps (fun s' c' => k s' ((i, consumed s s') :: c'))
  end.

(** [pattern.match(s)]: a match that starts at the start of [s]. *)
Definition match_at (r : regex) (s : str) : outcome :=
  rmatch r s [] (fun s' caps => Some (s', caps)).

(** [re.findall(r, s)] for a pattern with two groups that cannot match
    the empty string: the matches are looked for from the left and do
    not overlap; each gives the pair of its groups.  [skip] counts the
    characters of the last match that are still to be passed over. *)
Fixpoint findall_from (r : regex) (skip : nat) (s : str)
  : list (str * str) :=
  match s with
  | [] => []
  | _ :: s' =>
      match skip with
      | S n => findall_from r n s'
      | O =>
          match match_at r s with
          | Some (rest, caps) =>
              (group 1 caps, group 2 caps)
                :: findall_from r (length s - length rest - 1) s'
          | None => findall_from r 0 s'
          end
      end
  end.

Definition findall (r : regex) (s : str) : list (str * str) :=
  findall_from r 0 s.

(** [re.sub(r, repl, s)] for a pattern that cannot match the empty
    string and a replacement without group references. *)
Fixpoint sub_from (r : regex) (repl : str) (skip : nat) (s : str) : str :=
  match s with
  | [] => []
  | c :: s' =>
      match skip with
      | S n => sub_from r repl n s'
      | O =>
          match match_at r s with
          | Some (rest, _) =>
              repl ++ sub_from r repl (length s - length rest - 1) s'
          | None => c :: sub_from r repl 0 s'
          end
      end
  end.

Definition sub (r : regex) (repl s : str) : str := sub_from r repl 0 s.

End Re.

Import Re.

(** ** What the script sees of the outside world *)

(** The three levels the script logs at. *)
Inductive level : Type := INFO | WARNING | ERROR.

(** A [requests.Response], as far as the script and
    [raise_for_status] read it. *)
Record Response : Type := mkResponse {
  status_code : N;
  reason : str;
  response_url : str;
  text : str
}.

(** What a call of [requests.get] or [requests.head] does: it returns a
    response or raises a [requests.RequestException], the base class of
    everything the library raises (a timeout, a failed name lookup, a
    refused connection, an invalid URL); [e] is [str] of the
    exception. *)
Inductive reply : Type :=
| Returned (r : Response)
| RequestException (e : str).

(** [response.raise_for_status()]: [Some e] when it raises the
    [HTTPError] whose text is [e], for a status from 400 to 599. *)
Definition raise_for_status (r : Response) : option str :=
  if ((400 <=? status_code r) && (status_code r <? 500))%N then
    Some (str_of_N (status_code r) ++ lit " Client Error: " ++ reason r
            ++ lit " for url: " ++ response_url r)
  else if ((500 <=? status_code r) && (status_code r <? 600))%N then
    Some (str_of_N (status_code r) ++ lit " Server Error: " ++ reason r
            ++ lit " for url: " ++ response_url r)
  else None.

(** The calls of [logging.info], [logging.warning] and [logging.error]
    of the script, one constructor per call site. *)
Inductive event : Type :=
| FetchingReadme (url : str)
| FetchedReadme
| FetchReadmeError (e : str)
| ExtractingLinks
| FoundLinks (n : nat)
| Downloading (name url : str)
| SavedPlaylist (filename : str)
| DownloadFailed (name url e : str)
| UrlAvailable (url : str)
| UrlUnavailable (status : N) (url : str)
| UrlCheckError (url e : str)
| Processing (file_path : str)
| SavedAvailable (name available_file : str)
| SavedUnavailable (name unavailable_file : str)
| ProcessingError (name e : str)
| ScriptStarted
| ReadmeMissing
| NoLinksFound
| ScriptCompleted.

Definition level_of (ev : event) : level :=
  match ev with
  | FetchReadmeError _ | DownloadFailed _ _ _ | UrlCheckError _ _
  | ProcessingError _ _ | ReadmeMissing => ERROR
  | UrlUnavailable _ _ | NoLinksFound => WARNING
  | _ => INFO
  end.

(** The text of each log record. *)
Definition message_of (ev : event) : str :=
  match ev with
  | FetchingReadme url => lit "Fetching README.md from " ++ url
  | FetchedReadme => lit "Successfully fetched README.md"
  | FetchReadmeError e => lit "Error fetching README.md: " ++ e
  | ExtractingLinks =>
      lit "Extracting .m3u links and names from README.md content"
  | FoundLinks n => lit "Found " ++ str_of_nat n ++ lit " .m3u links"
  | Downloading name url =>
      lit "Downloading .m3u file '" ++ name ++ lit "' from " ++ url
  | SavedPlaylist filename => lit "Saved .m3u file to " ++ filename
  | DownloadFailed name url e =>
      lit "Failed to download .m3u file '" ++ name ++ lit "' from " ++ url
        ++ lit ": " ++ e
  | UrlAvailable url => lit "URL is available: " ++ url
  | UrlUnavailable status url =>
      lit "URL is unavailable (status code " ++ str_of_N status ++ lit "): "
        ++ url
  | UrlCheckError url e => lit "Error checking URL " ++ url ++ lit ": " ++ e
  | Processing file_path => lit "Processing .m3u file: " ++ file_path
  | SavedAvailable name f =>
      lit "Saved available links for '" ++ name ++ lit "' to " ++ f
  | SavedUnavailable name f =>
      lit "Saved unavailable links for '" ++ name ++ lit "' to " ++ f
  | ProcessingError name e =>
      lit "Error processing .m3u file '" ++ name ++ lit "': " ++ e
  | ScriptStarted =>
      lit "Starting script to process .m3u links from README.md"
  | ReadmeMissing => lit "Failed to fetch README.md. Exiting script."
  | NoLinksFound => lit "No .m3u links found in README.md. Exiting script."
  | ScriptCompleted => lit "Script completed successfully"
  end.

(** The network requests the script issues. *)
Inductive request : Type :=
| GET (url : str)
| HEAD (url : str).

(** ** Dictionaries *)

(** A Python [dict] with [str] keys: the items in insertion order; a
    key that is set again keeps its place and takes the new value. *)
Definition dict := list (str * str).

Fixpoint dict_set (k v : str) (d : dict) : dict :=
  match d with
  | [] => [(k, v)]
  | (k', v') :: rest =>
      if str_eqb k k' then (k, v) :: rest else (k', v') :: dict_set k v rest
  end.

Fixpoint dict_get (k : str) (d : dict) : option str :=
  match d with
  | [] => None
  | (k', v') :: rest => if str_eqb k k' then Some v' else dict_get k rest
  end.

(** The number of items of [d] under the key [k]. *)
Definition count_key (k : str) (d : dict) : nat :=
  length (filter (fun kv => str_eqb k (fst kv)) d).

(** ** Files *)

(** The files the script writes and reads: path and content, the latest
    write first.  Opening a path for writing replaces its content.  The
    two output folders exist ([os.makedirs] at import time), writing
    succeeds and the platform is POSIX: text is written as it is and
    read back with universal newlines. *)
Definition filesystem := list (str * str).

Definition read_file (path : str) (fs : filesystem) : option str :=
  dict_get path fs.

(** ** Constants of the script *)

Definition README_URL : str :=
  lit "https://raw.githubusercontent.com/iptv-org/iptv/master/README.md".
Definition M3U_FOLDER : str := lit "m3u_files".
Definition PROCESSED_FOLDER : str := lit "processed".

(** The pattern of [extract_m3u_links_with_names]:
    [<td>(.+?)</td>.*?<code>(https://[^\s]+\.m3u(?:8)?)</code>]. *)
Definition m3u_url_pattern : regex :=
  Seq (Lit (lit "https://"))
 (Seq (Plus true nonspace)
 (Seq (Lit (lit ".m3u"))
      (Opt (Lit (lit "8"))))).

Definition m3u_pattern : regex :=
  Seq (Lit (lit "<td>"))
 (Seq (Grp 1 (Plus false dot))
 (Seq (Lit (lit "</td>"))
 (Seq (Star false dot)
 (Seq (Lit (lit "<code>"))
 (Seq (Grp 2 m3u_url_pattern)
      (Lit (lit "</code>"))))))).

(** The f-string [f"{current_metadata}\n{line}"] of an entry. *)
Definition entry (current_metadata line : str) : str :=
  current_metadata ++ LF :: line.

(** The entries that the loop of [process_m3u_file] builds from the
    lines of a playlist, in the order in which it builds them, whatever
    the probes answer. *)
Fixpoint entries_from (current_metadata : str) (lines : list str)
  : list str :=
  match lines with
  | [] => []
  | raw :: rest =>
      let line := strip raw in
      if startswith (lit "#EXTINF") line then entries_from line rest
      else if startswith (lit "http") line then
        entry current_metadata line :: entries_from current_metadata rest
      else entries_from current_metadata rest
  end.

Definition parsed_entries (playlist : str) : list str :=
  entries_from [] (readlines playlist).

(** ** The script *)

Section Script.

(** [str.isalnum] beyond ASCII is a table of the Unicode database. *)
Variable unicode_alnum : char -> bool.

(** The network: a call answers and leaves the world changed. *)
Variable World : Type.
Variable requests_get : str -> World -> reply * World.
Variable requests_head : str -> World -> reply * World.

(** [str.isalnum] of one character. *)
Definition is_alnum (c : char) : bool :=
  if (c <? 128)%N then ascii_alnum c else unicode_alnum c.

(** The class [\w] of a [str] pattern: alphanumeric or underscore. *)
Definition word (c : char) : bool := is_alnum c || N.eqb c underscore.

(** The class [[^\w\s]]. *)
Definition special (c : char) : bool := negb (word c || space c).

Definition clean_category_name (name : str) : str :=
  let cleaned_name := replace (lit "&nbsp;") (lit " ") name in
  let cleaned_name := sub (Cls special) [] cleaned_name in
  let cleaned_name := sub (Plus true space) (lit "_") (strip cleaned_name) in
  cleaned_name.

(** The state of a run.  [log] and [requests] hold the latest item
    first. *)
Record state : Type := mkState {
  world : World;
  files : filesystem;
  log : list event;
  requests : list request
}.

Definition logging (ev : event) (st : state) : state :=
  mkState (world st) (files st) (ev :: log st) (requests st).

Definition write_file (path content : str) (st : state) : state :=
  mkState (world st) ((path, content) :: files st) (log st) (requests st).

Definition http_get (url : str) (st : state) : reply * state :=
  let (r, w) := requests_get url (world st) in
  (r, mkState w (files st) (log st) (GET url :: requests st)).

Definition http_head (url : str) (st : state) : reply * state :=
  let (r, w) := requests_head url (world st) in
  (r, mkState w (files st) (log st) (HEAD url :: requests st)).

Definition fetch_readme (url : str) (st : state) : option str * state :=
  let st := logging (FetchingReadme url) st in
  let (r, st) := http_get url st in
  match r with
  | Returned response =>
      match raise_for_status response with
      | None => (Some (text response), logging FetchedReadme st)
      | Some e => (None, logging (FetchReadmeError e) st)
      end
  | RequestException e => (None, logging (FetchReadmeError e) st)
  end.

(** The dictionary comprehension over the matches. *)
Definition links_of_matches (matches : list (str * str)) : dict :=
  fold_left (fun d m => dict_set (clean_category_name (fst m)) (snd m) d)
    matches [].

Definition extract_m3u_links_with_names (readme_content : str) (st : state)
  : dict * state :=
  let st := logging ExtractingLinks st in
  let matches := findall m3u_pattern readme_content in
  let m3u_links := links_of_matches matches in
  let st := logging (FoundLinks (length m3u_links)) st in
  (m3u_links, st).

Definition download_m3u_file (name url : str) (st : state)
  : option str * state :=
  let filename := path_join M3U_FOLDER (name ++ lit ".m3u") in
  let st := logging (Downloading name url) st in
  let (r, st) := http_get url st in
  match r with
  | Returned response =>
      match raise_for_status response with
      | None =>
          let st := write_file filename (text response) st in
          (Some filename, logging (SavedPlaylist filename) st)
      | Some e => (None, logging (DownloadFailed name url e) st)
      end
  | RequestException e => (None, logging (DownloadFailed name url e) st)
  end.

Definition check_url_availability (url : str) (st : state) : bool * state :=
  let (r, st) := http_head url st in
  match r with
  | Returned response =>
      if N.eqb (status_code response) 200 then
        (true, logging (UrlAvailable url) st)
      else
        (false, logging (UrlUnavailable (status_code response) url) st)
  | RequestException e => (false, logging (UrlCheckError url e) st)
  end.

(** The loop over the lines of [process_m3u_file]. *)
Fixpoint check_lines (lines : list str) (current_metadata : str)
  (available_links unavailable_links : list str) (st : state)
  : list str * list str * state :=
  match lines with
  | [] => (available_links, unavailable_links, st)
  | raw :: rest =>
      let line := strip raw in
      if startswith (lit "#EXTINF") line then
        check_lines rest line available_links unavailable_links st
      else if startswith (lit "http") line then
        let (is_available, st) := check_url_availability line st in
        if is_available then
          check_lines rest current_metadata
            (available_links ++ [entry current_metadata line])
            unavailable_links st
        else
          check_lines rest current_metadata available_links
            (unavailable_links ++ [entry current_metadata line]) st
      else check_lines rest current_metadata available_links
             unavailable_links st
  end.

Definition available_path (name : str) : str :=
  path_join PROCESSED_FOLDER (lit "available_" ++ name ++ lit ".m3u").

Definition unavailable_path (name : str) : str :=
  path_join PROCESSED_FOLDER (lit "unavailable_" ++ name ++ lit ".m3u").

(** [str] of the [FileNotFoundError] of [open(file_path, "r")]. *)
Definition file_not_found (file_path : str) : str :=
  lit "[Errno 2] No such file or directory: '" ++ file_path ++ lit "'".

(** The body of the [try] raises only when the playlist file is
    missing; the handler logs and the function returns. *)
Definition process_m3u_file (name file_path : str) (st : state) : state :=
  let st := logging (Processing file_path) st in
  match read_file file_path (files st) with
  | None => logging (ProcessingError name (file_not_found file_path)) st
  | Some content =>
      let '(available_links, unavailable_links, st) :=
        check_lines (readlines content) [] [] [] st in
      let available_file := available_path name in
      let unavailable_file := unavailable_path name in
      let st := write_file available_file (join [LF] available_links) st in
      let st := logging (SavedAvailable name available_file) st in
      let st :=
        write_file unavailable_file (join [LF] unavailable_links) st in
      logging (SavedUnavailable name unavailable_file) st
  end.

(** Truth value of an optional [str]: [None] and [""] are false. *)
Definition truthy (v : option str) : bool :=
  match v with
  | None | Some [] => false
  | Some _ => true
  end.

(** The loop of [main] over [m3u_links.items()].  The tasks given to
    the pool are independent of one another: each reads the playlist
    file of its own name and writes the two files of its own name.  The
    model runs a task when it is submitted, which is one of the
    schedules of the pool; leaving the [with] block waits for all of
    them. *)
Fixpoint download_and_process (items : dict) (st : state) : state :=
  match items with
  | [] => st
  | (name, m3u_link) :: rest =>
      let (m3u_file, st) := download_m3u_file name m3u_link st in
      if truthy m3u_file then
        match m3u_file with
        | Some f => download_and_process rest (process_m3u_file name f st)
        | None => download_and_process rest st
        end
      else download_and_process rest st
  end.

Definition main (st : state) : state :=
  let st := logging ScriptStarted st in
  let (readme_content, st) := fetch_readme README_URL st in
  if negb (truthy readme_content) then logging ReadmeMissing st
  else
    match readme_content with
    | None => st
    | Some content =>
        let (m3u_links, st) := extract_m3u_links_with_names content st in
        match m3u_links with
        | [] => logging NoLinksFound st
        | _ :: _ =>
            let st := download_and_process m3u_links st in
            logging ScriptCompleted st
        end
    end.

End Script.

(** ** A small concrete world *)

Module Sample.

(** The rows of the Unicode table for Latin-1; the code points beyond
    Latin-1 are left out of this sample table. *)
Definition alnum_table (c : char) : bool :=
  ((c =? 170) || (c =? 178) || (c =? 179) || (c =? 181) || (c =? 185)
   || (c =? 186) || (188 <=? c) && (c <=? 190)
   || (192 <=? c) && (c <=? 214) || (216 <=? c) && (c <=? 246)
   || (248 <=? c) && (c <=? 255))%N.

Definition news_url : str := lit "https://iptv.test/categories/news.m3u".
Definition sports_url : str := lit "https://iptv.test/categories/sports.m3u".
Definition kids_url : str := lit "https://iptv.test/categories/kids.m3u8".

(** An index document with three records. *)
Definition index_document : str :=
  lit "<tr><td>News</td><td align=right>12</td><td nowrap><code>"
    ++ news_url ++ lit "</code></td></tr>" ++ [LF]
    ++ lit "<tr><td>Sports &amp; Games</td><td nowrap><code>"
    ++ sports_url ++ lit "</code></td></tr>" ++ [LF]
    ++ lit "<tr><td>&nbsp;Kids</td><td nowrap><code>"
    ++ kids_url ++ lit "</code></td></tr>" ++ [LF].

(** A playlist: two entries with metadata, one without, one dangling
    metadata line. *)
Definition playlist : str :=
  lit "#EXTM3U" ++ [LF]
    ++ lit "#EXTINF:-1,Channel A" ++ [LF] ++ lit "http://a.test/1" ++ [LF]
    ++ lit "#EXTINF:-1,Channel B" ++ [CR; LF] ++ lit "http://b.test/2"
    ++ [CR; LF]
    ++ lit "https://c.test/3" ++ [LF]
    ++ lit "#EXTINF:-1,Channel D" ++ [LF].

Definition ok (url body : str) : reply :=
  Returned (mkResponse 200 (lit "OK") url body).

Definition not_found (url : str) : reply :=
  Returned (mkResponse 404 (lit "Not Found") url []).

Definition timed_out : reply := RequestException (lit "Read timed out.").

(** The world is the number of requests answered so far. *)
Definition sample_get (url : str) (w : nat) : reply * nat :=
  (if str_eqb url README_URL then ok url index_document
   else if str_eqb url news_url then ok url playlist
   else if str_eqb url kids_url then ok url playlist
   else if str_eqb url sports_url then not_found url
   else timed_out, S w).

Definition sample_head (url : str) (w : nat) : reply * nat :=
  (if str_eqb url (lit "http://a.test/1") then ok url []
   else if str_eqb url (lit "http://b.test/2") then not_found url
   else timed_out, S w).

(** A world whose index document is fetched but is empty. *)
Definition empty_get (url : str) (w : nat) : reply * nat :=
  (ok url [], S w).

(** A world whose index document holds one record with a name made of
    punctuation only. *)
Definition unnamed_document : str :=
  lit "<td>***</td><code>" ++ news_url ++ lit "</code>".

Definition unnamed_get (url : str) (w : nat) : reply * nat :=
  (if str_eqb url README_URL then ok url unnamed_document
   else ok url playlist, S w).

(** An index document in which two records share a name. *)
Definition old_news_url : str := lit "https://iptv.test/old/news.m3u".

Definition duplicate_document : str :=
  lit "<td>News</td><code>" ++ old_news_url ++ lit "</code>" ++ [LF]
    ++ lit "<td>News!</td><code>" ++ news_url ++ lit "</code>" ++ [LF].

(** A world without network, and one whose index document holds no
    record. *)
Definition offline_get (url : str) (w : nat) : reply * nat :=
  (timed_out, S w).

Definition blank_document : str := lit "# IPTV" ++ [LF].

Definition blank_get (url : str) (w : nat) : reply * nat :=
  (ok url blank_document, S w).

Definition start : state nat := mkState 0 [] [] [].

(** Two items whose downloads fail in the sample world, and a state in
    which a playlist without URL line has been downloaded. *)
Definition dead_links : dict :=
  [(lit "Sports", sports_url); (lit "Gone", lit "https://iptv.test/gone.m3u")].

Definition header_only : str :=
  lit "#EXTM3U" ++ [LF] ++ lit "#EXTINF:-1,Channel D" ++ [LF].

Definition downloaded_header : state nat :=
  mkState 1 [(lit "m3u_files/Empty.m3u", header_only)] [] [].

(** A state with files of an earlier run. *)
Definition earlier : state nat :=
  mkState 0
    [(lit "processed/available_News.m3u", lit "old");
     (lit "notes.txt", lit "keep")] [] [].

(** A state in which the sample playlist has been downloaded. *)
Definition downloaded : state nat :=
  mkState 1 [(lit "m3u_files/News.m3u", playlist)] [] [].

End Sample.

(** ** What a pattern matches *)

(** [matches r w c c']: the pattern [r] matches exactly the text [w]
    and turns the groups [c] into [c']. *)
Inductive matches : regex -> str -> captures -> captures -> Prop :=
| m_eps : forall c, matches Eps [] c c
| m_lit : forall w c, matches (Lit w) w c c
| m_cls : forall (p : char -> bool) a c,
    p a = true -> matches (Cls p) [a] c c
| m_seq : forall r1 r2 w1 w2 c c1 c2,
    matches r1 w1 c c1 -> matches r2 w2 c1 c2 ->
    matches (Seq r1 r2) (w1 ++ w2) c c2
| m_alt_l : forall r1 r2 w c c',
    matches r1 w c c' -> matches (Alt r1 r2) w c c'
| m_alt_r : forall r1 r2 w c c',
    matches r2 w c c' -> matches (Alt r1 r2) w c c'
| m_star : forall g (p : char -> bool) w c,
    forallb p w = true -> matches (Star g p) w c c
| m_grp : forall i r w c c',
    matches r w c c' -> matches (Grp i r) w c ((i, w) :: c').

(** The shape of a playlist URL: [https://], then at least one
    character and no white space, then [.m3u] or [.m3u8]. *)
Definition m3u_url (url : str) : Prop :=
  exists body tail,
    url = lit "https://" ++ body ++ lit ".m3u" ++ tail
    /\ body <> [] /\ forallb nonspace body = true
    /\ (tail = [] \/ tail = lit "8").

(** [a] and [u] split [l] and keep its order: a stable partition. *)
Inductive stable_partition (A : Type) : list A -> list A -> list A -> Prop :=
| sp_nil : stable_partition [] [] []
| sp_left : forall x l a u,
    stable_partition l a u -> stable_partition (x :: l) (x :: a) u
| sp_right : forall x l a u,
    stable_partition l a u -> stable_partition (x :: l) a (x :: u).

(** Every run of white space becomes one underscore; [in_run] tells
    that the character before was white space. *)
Fixpoint collapse_spaces (in_run : bool) (s : str) : str :=
  match s with
  | [] => []
  | c :: s' =>
      if is_space c then
        if in_run then collapse_spaces true s'
        else underscore :: collapse_spaces true s'
      else c :: collapse_spaces false s'
  end.

(** The records of a log that tell a failed download, and those that
    tell a written pair of partitions. *)
Definition is_download_failure (ev : event) : bool :=
  match ev with DownloadFailed _ _ _ => true | _ => false end.

Definition is_report (ev : event) : bool :=
  match ev with SavedUnavailable _ _ => true | _ => false end.

(** The three classes of a probe in the specification, the class of a
    reply in its words, and the class that a log record of the probe
    tells. *)
Inductive ProbeResult : Type := Reachable | Unreachable | ProbeFailed.

Definition classify (r : reply) : ProbeResult :=
  match r with
  | Returned response =>
      if N.eqb (status_code response) 200 then Reachable else Unreachable
  | RequestException _ => ProbeFailed
  end.

Definition class_of_event (ev : event) : option ProbeResult :=
  match ev with
  | UrlAvailable _ => Some Reachable
  | UrlUnavailable _ _ => Some Unreachable
  | UrlCheckError _ _ => Some ProbeFailed
  | _ => None
  end.

(** Where the loop of [process_m3u_file] puts the entry of a URL
    line. *)
Definition place (current_metadata line : str) (is_available : bool)
  (available_links unavailable_links : list str) : list str * list str :=
  if is_available
  then (available_links ++ [entry current_metadata line], unavailable_links)
  else (available_links, unavailable_links ++ [entry current_metadata line]).

(** The records logged between the states [st] and [st'] of a run, the
    latest first. *)
Definition new_events (World : Type) (st st' : state World) : list event :=
  firstn (length (log st') - length (log st)) (log st').

(** The records that the loop of [main] logs for one item, the latest
    first: a failed download, or a download and the processing of the
    playlist with its probes. *)
Inductive item_events (name url : str) : list event -> Prop :=
| ie_failed : forall e,
    item_events name url [DownloadFailed name url e; Downloading name url]
| ie_processed : forall probes f,
    Forall (fun ev => class_of_event ev <> None) probes ->
    item_events name url
      (SavedUnavailable name (unavailable_path name)
         :: SavedAvailable name (available_path name)
         :: probes ++ [Processing f; SavedPlaylist f; Downloading name url]).

Inductive loop_events : dict -> list event -> Prop :=
| le_nil : loop_events [] []
| le_cons : forall name url rest block evs,
    item_events name url block -> loop_events rest evs ->
    loop_events ((name, url) :: rest) (evs ++ block).

(** The path under which [download_m3u_file] saves the playlist of a
    name: its [filename]. *)
Definition playlist_path (name : str) : str :=
  path_join M3U_FOLDER (name ++ lit ".m3u").

(** The statuses for which [raise_for_status] raises. *)
Definition is_error_status (status : N) : bool :=
  ((400 <=? status) && (status <? 600))%N.

(** The URL lines of a playlist as the loop of [process_m3u_file]
    probes them, in order. *)
Fixpoint probed_urls (lines : list str) : list str :=
  match lines with
  | [] => []
  | raw :: rest =>
      let line := strip raw in
      if startswith (lit "#EXTINF") line then probed_urls rest
      else if startswith (lit "http") line then line :: probed_urls rest
      else probed_urls rest
  end.

Definition is_get (r : request) : bool :=
  match r with GET _ => true | HEAD _ => false end.

(** The requests issued between the states [st] and [st'] of a run, the
    latest first. *)
Definition new_requests (World : Type) (st st' : state World)
  : list request :=
  firstn (length (requests st') - length (requests st)) (requests st').

(** The keys of [keys] that are not in [seen], each once, in the order
    of their first occurrence. *)
Fixpoint first_occurrences (seen keys : list str) : list str :=
  match keys with
  | [] => []
  | k :: rest =>
      if existsb (str_eqb k) seen then first_occurrences seen rest
      else k :: first_occurrences (seen ++ [k]) rest
  end.

(** The metadata that the loop of [process_m3u_file] holds after the
    lines [lines], when it held [current_metadata] before them. *)
Fixpoint metadata_after (current_metadata : str) (lines : list str) : str :=
  match lines with
  | [] => current_metadata
  | raw :: rest =>
      if startswith (lit "#EXTINF") (strip raw)
      then metadata_after (strip raw) rest
      else metadata_after current_metadata rest
  end.

(** A line as the loop of [process_m3u_file] keeps it: stripped and
    without line terminator; and a pair of a metadata line and a URL
    line. *)
Definition plain_line (l : str) : Prop :=
  strip l = l /\ ~ In LF l /\ ~ In CR l.

Definition paired_entry (e : str * str) : Prop :=
  startswith (lit "#EXTINF") (fst e) = true
  /\ startswith (lit "http") (snd e) = true
  /\ plain_line (fst e) /\ plain_line (snd e).

(** * Properties *)

(** ** Strings *)

Lemma str_eqb_eq : forall a b, str_eqb a b = true <-> a = b.
Proof.
  induction a as [|x a IH]; destruct b as [|y b]; simpl; split;
    try congruence; try reflexivity.
  - intro H. apply andb_true_iff in H. destruct H as [H1 H2].
    apply N.eqb_eq in H1. apply IH in H2. congruence.
  - intro H. inversion H; subst. rewrite N.eqb_refl. simpl.
    apply IH. reflexivity.
Qed.

Lemma str_eqb_refl : forall a, str_eqb a a = true.
Proof. intro a. apply str_eqb_eq. reflexivity. Qed.

Lemma str_eqb_neq : forall a b, str_eqb a b = false <-> a <> b.
Proof.
  intros a b. split.
  - intros H E. apply str_eqb_eq in E. congruence.
  - intro H. destruct (str_eqb a b) eqn:E; [|reflexivity].
    apply str_eqb_eq in E. contradiction.
Qed.

Lemma str_eqb_sym : forall a b, str_eqb a b = str_eqb b a.
Proof.
  intros a b. destruct (str_eqb a b) eqn:E.
  - apply str_eqb_eq in E. subst. symmetry. apply str_eqb_refl.
  - symmetry. apply str_eqb_neq. apply str_eqb_neq in E. congruence.
Qed.

Lemma strip_prefix_sound : forall p s r,
  strip_prefix p s = Some r -> s = p ++ r.
Proof.
  induction p as [|x p IH]; simpl; intros s r H.
  - congruence.
  - destruct s as [|y s]; [discriminate|].
    destruct (N.eqb x y) eqn:E; [|discriminate].
    apply N.eqb_eq in E. subst y. f_equal. apply IH. exact H.
Qed.

Lemma strip_prefix_app : forall p r, strip_prefix p (p ++ r) = Some r.
Proof.
  induction p as [|x p IH]; simpl; intro r.
  - reflexivity.
  - rewrite N.eqb_refl. apply IH.
Qed.

Lemma startswith_app : forall p r, startswith p (p ++ r) = true.
Proof. intros p r. unfold startswith. rewrite strip_prefix_app. reflexivity. Qed.

Lemma startswith_sound : forall p s,
  startswith p s = true -> exists r, s = p ++ r.
Proof.
  unfold startswith. intros p s H.
  destruct (strip_prefix p s) as [r|] eqn:E; [|discriminate].
  exists r. apply strip_prefix_sound. exact E.
Qed.

Lemma endswith_app : forall p r, endswith p (r ++ p) = true.
Proof.
  intros p r. unfold endswith. rewrite rev_app_distr. apply startswith_app.
Qed.

(** ** The matcher finds only what the pattern matches *)

Lemma star_lazy_sound : forall p k s res,
  star_lazy p k s = Some res ->
  exists w s', s = w ++ s' /\ forallb p w = true /\ k s' = Some res.
Proof.
  induction s as [|a s IH]; simpl; intros res H.
  - destruct (k []) eqn:E; [|discriminate].
    exists [], []. inversion H; subst. auto.
  - destruct (k (a :: s)) eqn:E.
    + exists [], (a :: s). inversion H; subst. auto.
    + destruct (p a) eqn:Ea; [|discriminate].
      destruct (IH _ H) as (w & s' & -> & Hw & Hk).
      exists (a :: w), s'. simpl. rewrite Ea. auto.
Qed.

Lemma star_greedy_sound : forall p k s res,
  star_greedy p k s = Some res ->
  exists w s', s = w ++ s' /\ forallb p w = true /\ k s' = Some res.
Proof.
  induction s as [|a s IH]; simpl; intros res H.
  - exists [], []. auto.
  - destruct (p a) eqn:Ea.
    + destruct (star_greedy p k s) eqn:E.
      * inversion H; subst.
        destruct (IH _ eq_refl) as (w & s' & -> & Hw & Hk).
        exists (a :: w), s'. simpl. rewrite Ea. auto.
      * exists [], (a :: s). auto.
    + exists [], (a :: s). auto.
Qed.

Lemma consumed_app : forall w s', consumed (w ++ s') s' = w.
Proof.
  intros w s'. unfold consumed. rewrite length_app.
  replace (length w + length s' - length s') with (length w) by lia.
  rewrite firstn_app, firstn_all, Nat.sub_diag. simpl. apply app_nil_r.
Qed.

Lemma rmatch_sound : forall r s c k res,
  rmatch r s c k = Some res ->
  exists w s' c', s = w ++ s' /\ matches r w c c' /\ k s' c' = Some res.
Proof.
  induction r as [|w0|p|r1 IH1 r2 IH2|r1 IH1 r2 IH2|g p|i r IH];
    simpl; intros s c k res H.
  - exists [], s, c. split; [reflexivity|]. split; [constructor|exact H].
  - destruct (strip_prefix w0 s) as [s'|] eqn:E; [|discriminate].
    exists w0, s', c. split; [apply strip_prefix_sound; exact E|].
    split; [constructor|exact H].
  - destruct s as [|a s]; [discriminate|].
    destruct (p a) eqn:Ea; [|discriminate].
    exists [a], s, c. split; [reflexivity|].
    split; [constructor; exact Ea|exact H].
  - apply IH1 in H. destruct H as (w1 & s1 & c1 & -> & M1 & H).
    apply IH2 in H. destruct H as (w2 & s2 & c2 & -> & M2 & H).
    exists (w1 ++ w2), s2, c2. rewrite app_assoc.
    split; [reflexivity|]. split; [econstructor; eassumption|exact H].
  - destruct (rmatch r1 s c k) eqn:E.
    + inversion H; subst. apply IH1 in E.
      destruct E as (w & s' & c' & -> & M & Hk).
      exists w, s', c'. split; [reflexivity|].
      split; [apply m_alt_l; exact M|exact Hk].
    + apply IH2 in H. destruct H as (w & s' & c' & -> & M & Hk).
      exists w, s', c'. split; [reflexivity|].
      split; [apply m_alt_r; exact M|exact Hk].
  - destruct g.
    + apply star_greedy_sound in H. destruct H as (w & s' & -> & Hw & Hk).
      exists w, s', c. split; [reflexivity|].
      split; [constructor; exact Hw|exact Hk].
    + apply star_lazy_sound in H. destruct H as (w & s' & -> & Hw & Hk).
      exists w, s', c. split; [reflexivity|].
      split; [constructor; exact Hw|exact Hk].
  - apply IH in H. destruct H as (w & s' & c' & -> & M & Hk).
    rewrite consumed_app in Hk.
    exists w, s', ((i, w) :: c'). split; [reflexivity|].
    split; [constructor; exact M|exact Hk].
Qed.

Lemma match_at_sound : forall r s rest caps,
  match_at r s = Some (rest, caps) ->
  exists w, s = w ++ rest /\ matches r w [] caps.
Proof.
  unfold match_at. intros r s rest caps H.
  apply rmatch_sound in H. destruct H as (w & s' & c' & -> & M & Hk).
  inversion Hk; subst. exists w. auto.
Qed.

Lemma findall_from_sound : forall r s skip n u,
  In (n, u) (findall_from r skip s) ->
  exists w caps, matches r w [] caps /\ n = group 1 caps /\ u = group 2 caps.
Proof.
  induction s as [|a s IH]; simpl; intros skip n u H.
  - contradiction.
  - destruct skip as [|k].
    + destruct (match_at r (a :: s)) as [[rest caps]|] eqn:E.
      * destruct H as [H|H].
        -- inversion H; subst. apply match_at_sound in E.
           destruct E as (w & _ & M). exists w, caps. auto.
        -- eapply IH. exact H.
      * eapply IH. exact H.
    + eapply IH. exact H.
Qed.
(** ** The link pattern *)

Ltac inv H := inversion H; subst; clear H.

Ltac inv_matches :=
  repeat match goal with
  | H : matches (Seq _ _) _ _ _ |- _ => inv H
  | H : matches (Lit _) _ _ _ |- _ => inv H
  | H : matches (Cls _) _ _ _ |- _ => inv H
  | H : matches (Star _ _) _ _ _ |- _ => inv H
  | H : matches (Grp _ _) _ _ _ |- _ => inv H
  | H : matches Eps _ _ _ |- _ => inv H
  end.

Lemma m3u_url_pattern_matches : forall w c c',
  matches m3u_url_pattern w c c' -> c' = c /\ m3u_url w.
Proof.
  unfold m3u_url_pattern, Plus, Opt. intros w c c' H. inv_matches.
  match goal with H : matches (Alt _ _) _ _ _ |- _ => inv H end;
    inv_matches.
  - split; [reflexivity|]. exists ([a] ++ w5), (lit "8").
    repeat split; try discriminate; [|right; reflexivity].
    simpl. rewrite H0, H5. reflexivity.
  - split; [reflexivity|]. exists ([a] ++ w5), [].
    repeat split; try discriminate; [|left; reflexivity].
    simpl. rewrite H0, H5. reflexivity.
Qed.

Lemma m3u_pattern_matches : forall w caps,
  matches m3u_pattern w [] caps ->
  exists name url,
    caps = [(2, url); (1, name)] /\ name <> [] /\ m3u_url url.
Proof.
  unfold m3u_pattern, Plus. intros w caps H. inv_matches.
  match goal with H : matches m3u_url_pattern _ _ _ |- _ =>
    apply m3u_url_pattern_matches in H; destruct H as [-> Hu] end.
  eexists. eexists. split; [reflexivity|]. split; [discriminate|exact Hu].
Qed.

Lemma findall_m3u_pattern : forall doc n u,
  In (n, u) (findall m3u_pattern doc) -> n <> [] /\ m3u_url u.
Proof.
  unfold findall. intros doc n u H.
  apply findall_from_sound in H. destruct H as (w & caps & M & -> & ->).
  apply m3u_pattern_matches in M.
  destruct M as (name & url & -> & Hn & Hu). simpl. auto.
Qed.

Lemma m3u_url_shape : forall url,
  m3u_url url ->
  startswith (lit "https://") url = true
  /\ forallb nonspace url = true
  /\ (endswith (lit ".m3u") url = true \/ endswith (lit ".m3u8") url = true).
Proof.
  intros url (body & tail & -> & _ & Hb & Ht). split; [|split].
  - apply startswith_app.
  - rewrite !forallb_app, Hb. destruct Ht as [-> | ->]; reflexivity.
  - destruct Ht as [-> | ->].
    + left. rewrite app_nil_r, app_assoc. apply endswith_app.
    + right. rewrite app_assoc. apply (endswith_app (lit ".m3u8")).
Qed.

(** ** Dictionaries *)

Lemma dict_get_set : forall k k' v d,
  dict_get k (dict_set k' v d)
  = if str_eqb k k' then Some v else dict_get k d.
Proof.
  induction d as [|[k1 v1] d IH]; simpl.
  - reflexivity.
  - destruct (str_eqb k' k1) eqn:E1; simpl.
    + apply str_eqb_eq in E1. subst k1.
      destruct (str_eqb k k'); reflexivity.
    + rewrite IH. destruct (str_eqb k k') eqn:E; [|reflexivity].
      apply str_eqb_eq in E. subst k'. rewrite E1. reflexivity.
Qed.

Lemma count_key_cons : forall k k1 v1 d,
  count_key k ((k1, v1) :: d)
  = (if str_eqb k k1 then 1 else 0) + count_key k d.
Proof.
  intros. unfold count_key. simpl. destruct (str_eqb k k1); reflexivity.
Qed.

Lemma count_key_set : forall k k' v d,
  count_key k (dict_set k' v d)
  = if str_eqb k k'
    then (if Nat.eqb (count_key k d) 0 then 1 else count_key k d)
    else count_key k d.
Proof.
  induction d as [|[k1 v1] d IH].
  - simpl. rewrite count_key_cons. destruct (str_eqb k k'); reflexivity.
  - simpl. destruct (str_eqb k' k1) eqn:E1.
    + apply str_eqb_eq in E1. subst k1. rewrite !count_key_cons.
      destruct (str_eqb k k'); reflexivity.
    + rewrite !count_key_cons, IH.
      destruct (str_eqb k k') eqn:E; [|reflexivity].
      apply str_eqb_eq in E. subst k'. rewrite E1. reflexivity.
Qed.

Lemma dict_get_in : forall k v d, dict_get k d = Some v -> In (k, v) d.
Proof.
  induction d as [|[k1 v1] d IH]; simpl; intro H.
  - discriminate.
  - destruct (str_eqb k k1) eqn:E.
    + apply str_eqb_eq in E. inversion H; subst. left. reflexivity.
    + right. apply IH. exact H.
Qed.

Lemma count_key_in : forall k v d, In (k, v) d -> 1 <= count_key k d.
Proof.
  induction d as [|[k1 v1] d IH]; simpl; intro H.
  - contradiction.
  - rewrite count_key_cons. destruct H as [H|H].
    + inversion H; subst. rewrite str_eqb_refl. lia.
    + apply IH in H. lia.
Qed.

Lemma in_dict_get : forall k v d,
  (forall k', count_key k' d <= 1) -> In (k, v) d -> dict_get k d = Some v.
Proof.
  induction d as [|[k1 v1] d IH]; simpl; intros U H.
  - contradiction.
  - destruct H as [H|H].
    + inversion H; subst. rewrite str_eqb_refl. reflexivity.
    + destruct (str_eqb k k1) eqn:E.
      * apply str_eqb_eq in E. subst k1.
        specialize (U k). rewrite count_key_cons, str_eqb_refl in U.
        apply count_key_in in H. lia.
      * apply IH; [|exact H]. intro k'. specialize (U k').
        rewrite count_key_cons in U. lia.
Qed.

(** ** The link extractor *)

Section Extractor.

Variable unicode_alnum : char -> bool.
Variable World : Type.

Local Abbreviation clean := (clean_category_name unicode_alnum).
Local Abbreviation add :=
  (fun d m => dict_set (clean (fst m)) (snd m) d).

Lemma links_of_matches_fold : forall found,
  links_of_matches unicode_alnum found = fold_left add found [].
Proof. reflexivity. Qed.

Lemma fold_add_value : forall found d k v,
  dict_get k (fold_left add found d) = Some v ->
  In v (map snd found) \/ dict_get k d = Some v.
Proof.
  induction found as [|[n u] ms IH]; simpl; intros d k v H.
  - right. exact H.
  - apply IH in H. destruct H as [H|H].
    + left. right. exact H.
    + simpl in H. rewrite dict_get_set in H.
      destruct (str_eqb k (clean n)).
      * inversion H; subst. left. left. reflexivity.
      * right. exact H.
Qed.

Lemma fold_add_other : forall found d k,
  (forall n u, In (n, u) found -> clean n <> k) ->
  dict_get k (fold_left add found d) = dict_get k d.
Proof.
  induction found as [|[n u] ms IH]; simpl; intros d k H.
  - reflexivity.
  - rewrite IH by (intros n' u' Hin; apply (H n' u'); right; exact Hin).
    simpl. rewrite dict_get_set.
    destruct (str_eqb k (clean n)) eqn:E; [|reflexivity].
    apply str_eqb_eq in E. exfalso. apply (H n u); auto.
Qed.

Lemma fold_add_unique : forall found d,
  (forall k, count_key k d <= 1) ->
  forall k, count_key k (fold_left add found d) <= 1.
Proof.
  induction found as [|[n u] ms IH]; simpl; intros d U k.
  - apply U.
  - apply IH. intro k'. simpl. rewrite count_key_set.
    specialize (U k').
    destruct (str_eqb k' (clean n)); [|exact U].
    destruct (Nat.eqb (count_key k' d) 0); [lia|exact U].
Qed.

Lemma fold_add_keeps : forall found d k,
  1 <= count_key k d -> 1 <= count_key k (fold_left add found d).
Proof.
  induction found as [|[n u] ms IH]; simpl; intros d k H.
  - exact H.
  - apply IH. simpl. rewrite count_key_set.
    destruct (str_eqb k (clean n)); [|exact H].
    destruct (Nat.eqb (count_key k d) 0); [lia|exact H].
Qed.

Lemma links_unique : forall found k,
  count_key k (links_of_matches unicode_alnum found) <= 1.
Proof.
  intros found k. rewrite links_of_matches_fold.
  apply fold_add_unique. intro k'. apply Nat.le_0_l.
Qed.

Lemma links_last_wins : forall before n u after,
  (forall n' u', In (n', u') after -> clean n' <> clean n) ->
  let d := links_of_matches unicode_alnum (before ++ (n, u) :: after) in
  count_key (clean n) d = 1 /\ dict_get (clean n) d = Some u.
Proof.
  intros before n u after H d. subst d.
  assert (G : dict_get (clean n)
                (links_of_matches unicode_alnum (before ++ (n, u) :: after))
              = Some u).
  { rewrite links_of_matches_fold, fold_left_app. simpl.
    rewrite fold_add_other by exact H.
    simpl. rewrite dict_get_set, str_eqb_refl.
    reflexivity. }
  split; [|exact G].
  apply Nat.le_antisymm; [apply links_unique|].
  apply dict_get_in in G. eapply count_key_in. exact G.
Qed.

Lemma links_keys : forall found n u,
  In (n, u) found ->
  exists url, dict_get (clean n) (links_of_matches unicode_alnum found)
              = Some url.
Proof.
  intros found n u H. rewrite links_of_matches_fold.
  assert (G : forall ms d,
             (In (n, u) ms \/ exists v, dict_get (clean n) d = Some v) ->
             exists url, dict_get (clean n) (fold_left add ms d) = Some url).
  { induction ms as [|[n1 u1] ms IH]; simpl; intros d [Hin|Hd].
    - contradiction.
    - exact Hd.
    - apply IH. destruct Hin as [E|Hin]; [|left; exact Hin].
      inversion E; subst. right. exists u. simpl.
      rewrite dict_get_set, str_eqb_refl. reflexivity.
    - apply IH. right. destruct Hd as [v Hv]. simpl.
      rewrite dict_get_set. destruct (str_eqb (clean n) (clean n1)); eauto. }
  apply G. left. exact H.
Qed.

Lemma extract_links : forall doc (st : state World),
  fst (extract_m3u_links_with_names unicode_alnum doc st)
  = links_of_matches unicode_alnum (findall m3u_pattern doc).
Proof. reflexivity. Qed.

(** C10: every URL of the mapping that the extractor returns starts
    with [https://], holds no white space and ends with [.m3u] or
    [.m3u8]. *)
Theorem extracted_urls_are_https_playlists :
  forall doc (st : state World) name url,
    dict_get name (fst (extract_m3u_links_with_names unicode_alnum doc st))
    = Some url ->
    startswith (lit "https://") url = true
    /\ forallb nonspace url = true
    /\ (endswith (lit ".m3u") url = true
        \/ endswith (lit ".m3u8") url = true).
Proof.
  intros doc st name url H. rewrite extract_links in H.
  rewrite links_of_matches_fold in H. apply fold_add_value in H.
  destruct H as [H|H]; [|discriminate].
  apply in_map_iff in H. destruct H as ([n u] & E & Hin). simpl in E.
  subst u. apply findall_m3u_pattern in Hin. apply m3u_url_shape.
  apply Hin.
Qed.

(** C4: when two records of the document have names that normalize to
    the same identifier and carry different URLs, the mapping holds
    exactly one item under that identifier, and its URL is the one of
    the record that comes last in the document. *)
Theorem later_record_wins :
  forall doc (st : state World) before n1 u1 between n2 u2 after,
    findall m3u_pattern doc
    = before ++ (n1, u1) :: between ++ (n2, u2) :: after ->
    clean n1 = clean n2 ->
    u1 <> u2 ->
    (forall n u, In (n, u) after -> clean n <> clean n2) ->
    let m3u_links :=
      fst (extract_m3u_links_with_names unicode_alnum doc st) in
    count_key (clean n2) m3u_links = 1
    /\ dict_get (clean n2) m3u_links = Some u2.
Proof.
  intros doc st before n1 u1 between n2 u2 after Hm _ _ Hlast m3u_links.
  subst m3u_links. rewrite extract_links, Hm.
  replace (before ++ (n1, u1) :: between ++ (n2, u2) :: after)
    with ((before ++ (n1, u1) :: between) ++ (n2, u2) :: after)
    by (rewrite <- app_assoc; reflexivity).
  apply links_last_wins. exact Hlast.
Qed.

End Extractor.

(** ** The name normalizer *)

Lemma sub_from_nil : forall r repl skip, sub_from r repl skip [] = [].
Proof. reflexivity. Qed.

Lemma sub_from_skip : forall r repl n c s,
  sub_from r repl (S n) (c :: s) = sub_from r repl n s.
Proof. reflexivity. Qed.

Lemma sub_from_try : forall r repl c s,
  sub_from r repl 0 (c :: s)
  = match match_at r (c :: s) with
    | Some (rest, _) =>
        repl ++ sub_from r repl (length (c :: s) - length rest - 1) s
    | None => c :: sub_from r repl 0 s
    end.
Proof. reflexivity. Qed.

Lemma match_at_cls : forall (p : char -> bool) c s,
  match_at (Cls p) (c :: s) = if p c then Some (s, []) else None.
Proof. reflexivity. Qed.

(** Substituting the empty string for the characters of a set removes
    them. *)
Lemma sub_cls_filter : forall (p : char -> bool) s,
  sub (Cls p) [] s = filter (fun c => negb (p c)) s.
Proof.
  unfold sub. induction s as [|c s IH].
  - reflexivity.
  - rewrite sub_from_try, match_at_cls. simpl filter.
    destruct (p c); simpl negb; cbv iota.
    + replace (length (c :: s) - length s - 1) with 0 by (cbn [length]; lia).
      simpl. exact IH.
    + rewrite IH. reflexivity.
Qed.

Lemma star_greedy_spaces : forall s,
  star_greedy space (fun s' => Some (s', @nil (nat * str))) s
  = Some (lstrip s, []).
Proof.
  induction s as [|c s IH]; simpl.
  - reflexivity.
  - unfold space at 1. destruct (is_space c); [|reflexivity].
    rewrite IH. reflexivity.
Qed.

Lemma match_at_spaces : forall c s,
  match_at (Plus true space) (c :: s)
  = if is_space c then Some (lstrip s, []) else None.
Proof.
  intros c s. unfold match_at, Plus. simpl. unfold space at 1.
  destruct (is_space c); [|reflexivity]. apply star_greedy_spaces.
Qed.

Lemma lstrip_length : forall s, length (lstrip s) <= length s.
Proof.
  induction s as [|c s IH]; simpl; [lia|].
  destruct (is_space c); simpl; lia.
Qed.

Lemma sub_from_skip_spaces : forall r repl s,
  sub_from r repl (length s - length (lstrip s)) s
  = sub_from r repl 0 (lstrip s).
Proof.
  induction s as [|c s IH].
  - reflexivity.
  - simpl lstrip. destruct (is_space c).
    + pose proof (lstrip_length s) as L.
      replace (length (c :: s) - length (lstrip s))
        with (S (length s - length (lstrip s))) by (cbn [length]; lia).
      rewrite sub_from_skip. exact IH.
    + rewrite Nat.sub_diag. reflexivity.
Qed.

Lemma collapse_after_space : forall s,
  collapse_spaces true s = collapse_spaces false (lstrip s).
Proof.
  induction s as [|c s IH]; simpl.
  - reflexivity.
  - destruct (is_space c) eqn:E; [exact IH|].
    simpl. rewrite E. reflexivity.
Qed.

(** Substituting an underscore for [\s+] turns every run of white space
    into one underscore. *)
Lemma sub_spaces_collapse : forall s,
  sub (Plus true space) (lit "_") s = collapse_spaces false s.
Proof.
  unfold sub. intro s.
  assert (G : forall n s, length s <= n ->
            sub_from (Plus true space) (lit "_") 0 s
            = collapse_spaces false s).
  { induction n as [|n IH]; intros [|c t] L; try reflexivity.
    - cbn [length] in L. lia.
    - rewrite sub_from_try, match_at_spaces. simpl collapse_spaces.
      destruct (is_space c).
      + pose proof (lstrip_length t) as Lt.
        replace (length (c :: t) - length (lstrip t) - 1)
          with (length t - length (lstrip t)) by (cbn [length]; lia).
        rewrite sub_from_skip_spaces, IH by (cbn [length] in L; lia).
        rewrite collapse_after_space. reflexivity.
      + rewrite IH by (cbn [length] in L; lia). reflexivity. }
  apply (G (length s)). lia.
Qed.

Lemma lstrip_in : forall s c, In c (lstrip s) -> In c s.
Proof.
  induction s as [|a s IH]; simpl; intros c H.
  - contradiction.
  - destruct (is_space a); [right; apply IH; exact H|exact H].
Qed.

Lemma strip_in : forall s c, In c (strip s) -> In c s.
Proof.
  unfold strip, rstrip. intros s c H.
  apply in_rev, lstrip_in, in_rev in H. apply lstrip_in. exact H.
Qed.

Lemma lstrip_nonspace : forall s,
  (forall c, In c s -> is_space c = false) -> lstrip s = s.
Proof.
  intros [|a s] H; simpl.
  - reflexivity.
  - rewrite (H a) by (left; reflexivity). reflexivity.
Qed.

Lemma strip_nonspace : forall s,
  (forall c, In c s -> is_space c = false) -> strip s = s.
Proof.
  intros s H. unfold strip, rstrip. rewrite (lstrip_nonspace s) by exact H.
  rewrite lstrip_nonspace.
  - apply rev_involutive.
  - intros c Hc. apply H. apply in_rev. exact Hc.
Qed.

Lemma collapse_in : forall s b c,
  In c (collapse_spaces b s) ->
  c = underscore \/ (In c s /\ is_space c = false).
Proof.
  induction s as [|a s IH]; simpl; intros b c H.
  - contradiction.
  - destruct (is_space a) eqn:E.
    + destruct b.
      * apply IH in H. tauto.
      * destruct H as [H|H]; [left; congruence|].
        apply IH in H. tauto.
    + destruct H as [H|H].
      * subst a. right. auto.
      * apply IH in H. tauto.
Qed.

Lemma collapse_nonspace : forall s,
  (forall c, In c s -> is_space c = false) -> collapse_spaces false s = s.
Proof.
  induction s as [|a s IH]; simpl; intro H.
  - reflexivity.
  - rewrite (H a) by (left; reflexivity). f_equal.
    apply IH. intros c Hc. apply H. right. exact Hc.
Qed.

Lemma replace_without_first : forall x old new s,
  (forall c, In c s -> c <> x) ->
  replace (x :: old) new s = s.
Proof.
  unfold replace. induction s as [|a s IH]; intro H.
  - reflexivity.
  - simpl. unfold startswith. simpl.
    assert (E : N.eqb x a = false).
    { apply N.eqb_neq. intro F. apply (H a); [left; reflexivity|].
      congruence. }
    rewrite E. f_equal. apply IH. intros c Hc. apply H. right. exact Hc.
Qed.

Lemma filter_all : forall (A : Type) (f : A -> bool) l,
  (forall x, In x l -> f x = true) -> filter f l = l.
Proof.
  induction l as [|a l IH]; simpl; intro H.
  - reflexivity.
  - rewrite (H a) by (left; reflexivity). f_equal.
    apply IH. intros x Hx. apply H. right. exact Hx.
Qed.

Section Normalizer.

Variable unicode_alnum : char -> bool.

Local Abbreviation clean := (clean_category_name unicode_alnum).
Local Abbreviation word_char := (word unicode_alnum).
Local Abbreviation alnum := (is_alnum unicode_alnum).

(** The characters that the second step keeps. *)
Local Abbreviation kept :=
  (fun c => alnum c || N.eqb c underscore || is_space c).

Lemma clean_stages : forall name,
  clean name
  = collapse_spaces false
      (strip (filter kept (replace (lit "&nbsp;") (lit " ") name))).
Proof.
  intro name. unfold clean_category_name.
  rewrite sub_spaces_collapse, sub_cls_filter. do 2 f_equal.
  apply filter_ext. intro c. unfold special, word, space.
  apply negb_involutive.
Qed.

(** What comes out of the normalizer is made of word characters, none
    of them white space. *)
Lemma clean_chars : forall name c,
  In c (clean name) -> word_char c = true /\ is_space c = false.
Proof.
  intros name c H. rewrite clean_stages in H. apply collapse_in in H.
  destruct H as [-> | [H E]].
  - split; reflexivity.
  - apply strip_in, filter_In in H. destruct H as [_ K].
    split; [|exact E]. rewrite E, orb_false_r in K. exact K.
Qed.

Lemma word_not_ampersand : forall c, word_char c = true -> c <> ampersand.
Proof. intros c H ->. discriminate. Qed.

(** The normalizer leaves such a text as it is. *)
Lemma clean_fixed : forall s,
  (forall c, In c s -> word_char c = true /\ is_space c = false) ->
  clean s = s.
Proof.
  intros s H. rewrite clean_stages.
  change (lit "&nbsp;") with (ampersand :: lit "nbsp;").
  rewrite replace_without_first
    by (intros c Hc; apply word_not_ampersand, H, Hc).
  rewrite filter_all.
  - rewrite strip_nonspace by (intros c Hc; apply H, Hc).
    apply collapse_nonspace. intros c Hc. apply H, Hc.
  - intros c Hc. destruct (H c Hc) as [W _]. unfold word in W.
    rewrite W. reflexivity.
Qed.

(** C9: the normalizer is idempotent. *)
Theorem clean_category_name_idempotent : forall x,
  clean_category_name unicode_alnum (clean_category_name unicode_alnum x)
  = clean_category_name unicode_alnum x.
Proof.
  intro x. apply clean_fixed. intros c H. eapply clean_chars. exact H.
Qed.

(** C3, amended: the normalizer replaces [&nbsp;] by a space, then
    removes every character that is not alphanumeric, an underscore or
    white space, so that an underscore of the input stays, then trims
    the white space at both ends and turns each run of white space that
    is left into one underscore; [" Some &nbsp; Name! "] becomes
    ["Some_Name"]. *)
Theorem clean_category_name_keeps_word_characters : forall name,
  clean_category_name unicode_alnum name
  = collapse_spaces false
      (strip (filter kept (replace (lit "&nbsp;") (lit " ") name)))
  /\ count_occ N.eq_dec (filter kept name) underscore
     = count_occ N.eq_dec name underscore
  /\ clean_category_name unicode_alnum (lit " Some &nbsp; Name! ")
     = lit "Some_Name".
Proof.
  intro name. split; [apply clean_stages|]. split; [|reflexivity].
  induction name as [|c s IH]; [reflexivity|].
  simpl filter. destruct (N.eq_dec c underscore) as [->|Hc].
  - simpl. rewrite IH. reflexivity.
  - destruct (alnum c || N.eqb c underscore || is_space c).
    + rewrite !count_occ_cons_neq by exact Hc. exact IH.
    + rewrite count_occ_cons_neq by exact Hc. exact IH.
Qed.

End Normalizer.

(** C3 as stated fails: an underscore of the input is not removed. *)
Lemma underscore_is_not_removed :
  clean_category_name Sample.alnum_table (lit "a_b") = lit "a_b"
  /\ In underscore (clean_category_name Sample.alnum_table (lit "a_b")).
Proof. split; [reflexivity|]. right. left. reflexivity. Qed.

(** ** Probing and partitioning a playlist *)

Lemma stable_partition_permutation : forall (A : Type) (l a u : list A),
  stable_partition l a u -> Permutation (a ++ u) l.
Proof.
  induction 1; simpl.
  - constructor.
  - constructor. assumption.
  - apply Permutation_sym. apply Permutation_cons_app.
    apply Permutation_sym. assumption.
Qed.

Lemma stable_partition_length : forall (A : Type) (l a u : list A),
  stable_partition l a u -> length a + length u = length l.
Proof. induction 1; simpl; lia. Qed.

Lemma http_is_not_extinf : forall line,
  startswith (lit "http") line = true ->
  startswith (lit "#EXTINF") line = false.
Proof.
  intros line H. apply startswith_sound in H. destruct H as [r ->].
  reflexivity.
Qed.

Section Playlist.

Variable World : Type.
Variable requests_head : str -> World -> reply * World.

Local Abbreviation check := (check_url_availability requests_head).
Local Abbreviation loop := (check_lines requests_head).

Lemma loop_url_line : forall raw rest m av un st,
  startswith (lit "http") (strip raw) = true ->
  loop (raw :: rest) m av un st
  = let (ok, st1) := check (strip raw) st in
    let (av1, un1) := place m (strip raw) ok av un in
    loop rest m av1 un1 st1.
Proof.
  intros raw rest m av un st H. simpl.
  rewrite (http_is_not_extinf _ H), H.
  destruct (check (strip raw) st) as [[|] st1]; reflexivity.
Qed.

Lemma loop_partitions : forall lines m av un st,
  exists a u,
    fst (loop lines m av un st) = (av ++ a, un ++ u)
    /\ stable_partition (entries_from m lines) a u.
Proof.
  induction lines as [|raw rest IH]; intros m av un st.
  - exists [], []. simpl. rewrite !app_nil_r. split; constructor.
  - simpl.
    destruct (startswith (lit "#EXTINF") (strip raw)); [apply IH|].
    destruct (startswith (lit "http") (strip raw)); [|apply IH].
    destruct (check (strip raw) st) as [[|] st1].
    + destruct (IH m (av ++ [entry m (strip raw)]) un st1)
        as (a & u & E & P).
      exists (entry m (strip raw) :: a), u. rewrite E, <- app_assoc.
      split; [reflexivity|]. constructor. exact P.
    + destruct (IH m av (un ++ [entry m (strip raw)]) st1)
        as (a & u & E & P).
      exists a, (entry m (strip raw) :: u). rewrite E, <- app_assoc.
      split; [reflexivity|]. constructor. exact P.
Qed.

Lemma available_path_eq : forall name,
  available_path name = lit "processed/available_" ++ name ++ lit ".m3u".
Proof. reflexivity. Qed.

Lemma unavailable_path_eq : forall name,
  unavailable_path name
  = lit "processed/unavailable_" ++ name ++ lit ".m3u".
Proof. reflexivity. Qed.

Lemma partition_paths_differ : forall name,
  str_eqb (available_path name) (unavailable_path name) = false.
Proof. reflexivity. Qed.



Lemma loop_until_url : forall between url_line m av un st,
  (forall l, In l between -> startswith (lit "#EXTINF") (strip l) = false) ->
  startswith (lit "http") (strip url_line) = true ->
  loop (between ++ [url_line]) m av un st
  = let '(av1, un1, st1) := loop between m av un st in
    let (ok, st2) := check (strip url_line) st1 in
    (place m (strip url_line) ok av1 un1, st2).
Proof.
  induction between as [|raw rest IH]; intros url_line m av un st N H.
  - simpl app. rewrite loop_url_line by exact H. simpl.
    destruct (check (strip url_line) st) as [ok st2].
    destruct (place m (strip url_line) ok av un). reflexivity.
  - simpl. rewrite (N raw) by (left; reflexivity).
    assert (N' : forall l, In l rest ->
                   startswith (lit "#EXTINF") (strip l) = false)
      by (intros l Hl; apply N; right; exact Hl).
    destruct (startswith (lit "http") (strip raw)).
    + destruct (check (strip raw) st) as [[|] st1]; apply IH; assumption.
    + apply IH; assumption.
Qed.

Lemma loop_after_metadata : forall before meta_line rest m av un st,
  startswith (lit "#EXTINF") (strip meta_line) = true ->
  loop (before ++ meta_line :: rest) m av un st
  = let '(av1, un1, st1) := loop before m av un st in
    loop rest (strip meta_line) av1 un1 st1.
Proof.
  induction before as [|raw more IH]; intros meta_line rest m av un st H.
  - simpl. rewrite H. reflexivity.
  - simpl.
    destruct (startswith (lit "#EXTINF") (strip raw)); [apply IH; exact H|].
    destruct (startswith (lit "http") (strip raw)); [|apply IH; exact H].
    destruct (check (strip raw) st) as [[|] st1]; apply IH; exact H.
Qed.

(** C2, amended: the loop does not reset the metadata when it emits an
    entry.  A URL line is emitted with the text of the latest
    [#EXTINF] line before it, whether or not other URL lines were
    emitted in between; its metadata is empty only when no [#EXTINF]
    line comes before it in the playlist. *)
Theorem url_line_takes_latest_metadata :
  forall before meta_line between url_line m av un (st : state World),
    (forall l, In l between ->
               startswith (lit "#EXTINF") (strip l) = false) ->
    startswith (lit "http") (strip url_line) = true ->
    (startswith (lit "#EXTINF") (strip meta_line) = true ->
     loop (before ++ meta_line :: between ++ [url_line]) m av un st
     = let '(av1, un1, st1) :=
         loop (before ++ meta_line :: between) m av un st in
       let (ok, st2) := check (strip url_line) st1 in
       (place (strip meta_line) (strip url_line) ok av1 un1, st2))
    /\ loop (between ++ [url_line]) [] av un st
       = let '(av1, un1, st1) := loop between [] av un st in
         let (ok, st2) := check (strip url_line) st1 in
         (place [] (strip url_line) ok av1 un1, st2).
Proof.
  intros before meta_line between url_line m av un st N H. split.
  - intro M. rewrite !loop_after_metadata by exact M.
    destruct (loop before m av un st) as [[av0 un0] st0].
    apply loop_until_url; assumption.
  - apply loop_until_url; assumption.
Qed.

End Playlist.

(** C2 as stated fails: in the sample playlist the third URL line
    follows an emitted entry with no metadata line in between, and its
    entry carries the metadata of the entry before. *)
Lemma metadata_is_not_reset :
  fst (check_lines Sample.sample_head (readlines Sample.playlist)
         [] [] [] Sample.start)
  = ([entry (lit "#EXTINF:-1,Channel A") (lit "http://a.test/1")],
     [entry (lit "#EXTINF:-1,Channel B") (lit "http://b.test/2");
      entry (lit "#EXTINF:-1,Channel B") (lit "https://c.test/3")])
  /\ entry (lit "#EXTINF:-1,Channel B") (lit "https://c.test/3")
     <> entry [] (lit "https://c.test/3").
Proof. split; [reflexivity|discriminate]. Qed.

(** ** The records of the loop over the playlists *)

Lemma probes_are_neither : forall probes,
  Forall (fun ev => class_of_event ev <> None) probes ->
  filter is_download_failure probes = []
  /\ filter is_report probes = [].
Proof.
  induction 1 as [|ev probes H _ [IH1 IH2]]; simpl.
  - auto.
  - rewrite IH1, IH2. destruct ev; simpl in *; auto; congruence.
Qed.

Lemma probe_in : forall probes ev,
  Forall (fun ev => class_of_event ev <> None) probes ->
  In ev probes -> class_of_event ev <> None.
Proof.
  intros probes ev F H. rewrite Forall_forall in F. apply F. exact H.
Qed.

Lemma block_in : forall name url block ev,
  item_events name url block -> In ev block ->
  class_of_event ev <> None
  \/ ev = Downloading name url
  \/ (exists e, ev = DownloadFailed name url e
                /\ block = [ev; Downloading name url])
  \/ ((ev = SavedUnavailable name (unavailable_path name)
       \/ ev = SavedAvailable name (available_path name)
       \/ (exists f, ev = Processing f) \/ (exists f, ev = SavedPlaylist f))
      /\ filter is_download_failure block = []).
Proof.
  intros name url block ev B H. inv B.
  - destruct H as [H|[H|[]]]; subst; eauto 6.
  - assert (Z : filter is_download_failure
                  (SavedUnavailable name (unavailable_path name)
                     :: SavedAvailable name (available_path name)
                     :: probes ++ [Processing f; SavedPlaylist f;
                                   Downloading name url]) = []).
    { simpl. rewrite filter_app.
      destruct (@probes_are_neither _ H0) as [-> _]. reflexivity. }
    destruct H as [H|[H|H]]; subst; eauto 8.
    apply in_app_or in H. destruct H as [H|[H|[H|[H|[]]]]]; subst;
      eauto 8;
      try solve [right; right; right; split; [eauto 6|exact Z]].
    left. eapply probe_in; eassumption.
Qed.

Lemma block_count : forall name url block,
  item_events name url block ->
  length (filter is_download_failure block)
  + length (filter is_report block) = 1.
Proof.
  intros name url block B. inv B; simpl.
  - reflexivity.
  - rewrite !filter_app. destruct (@probes_are_neither _ H) as [-> ->].
    reflexivity.
Qed.

Lemma block_outcome : forall name url block,
  item_events name url block ->
  In (Downloading name url) block
  /\ ((exists e, In (DownloadFailed name url e) block)
      \/ (In (SavedUnavailable name (unavailable_path name)) block
          /\ In (SavedAvailable name (available_path name)) block)).
Proof.
  intros name url block B. inv B.
  - split; [simpl; auto|]. left. exists e. simpl. auto.
  - split.
    + right. right. apply in_or_app. right. simpl. auto.
    + right. simpl. auto.
Qed.

Lemma loop_events_count : forall items evs,
  loop_events items evs ->
  length (filter is_download_failure evs) + length (filter is_report evs)
  = length items.
Proof.
  induction 1 as [|name url rest block evs B _ IH]; simpl.
  - reflexivity.
  - rewrite !filter_app, !length_app.
    pose proof (@block_count _ _ _ B). lia.
Qed.

(** Every record of the loop that names a playlist names one of the
    items. *)
Lemma loop_events_names : forall items evs,
  loop_events items evs ->
  forall ev name,
    In ev evs ->
    (exists url e, ev = DownloadFailed name url e)
    \/ (exists f, ev = SavedUnavailable name f)
    \/ (exists f, ev = SavedAvailable name f) ->
    exists url, In (name, url) items.
Proof.
  induction 1 as [|n u rest block evs B _ IH]; intros ev name H K.
  - contradiction.
  - apply in_app_or in H. destruct H as [H|H].
    + destruct (IH ev name H K) as [url G]. exists url. right. exact G.
    + exists u. left.
      destruct (@block_in _ _ _ _ B H) as [C|[C|[(e & C & _)|[C _]]]].
      * destruct K as [(? & ? & ->)|[[? ->]|[? ->]]]; simpl in C;
          congruence.
      * destruct K as [(? & ? & ->)|[[? ->]|[? ->]]]; discriminate.
      * destruct K as [(? & ? & ->)|[[? ->]|[? ->]]]; congruence.
      * destruct C as [C|[C|[[? C]|[? C]]]];
          destruct K as [(? & ? & ->)|[[? ->]|[? ->]]]; congruence.
Qed.

(** With one item per name, a playlist whose download failed has no
    report. *)
Lemma loop_events_skip : forall items evs,
  loop_events items evs ->
  (forall k, count_key k items <= 1) ->
  forall name url e f,
    In (DownloadFailed name url e) evs ->
    ~ In (SavedUnavailable name f) evs /\ ~ In (SavedAvailable name f) evs.
Proof.
  induction 1 as [|n u rest block evs B L IH]; intros U name url e f H.
  - contradiction.
  - assert (U' : forall k, count_key k rest <= 1).
    { intro k. specialize (U k). rewrite count_key_cons in U. lia. }
    assert (R : forall ev,
               In ev evs ->
               (exists url e, ev = DownloadFailed n url e)
               \/ (exists f, ev = SavedUnavailable n f)
               \/ (exists f, ev = SavedAvailable n f) -> False).
    { intros ev Hev K.
      destruct (@loop_events_names _ _ L _ _ Hev K) as [url' G].
      apply count_key_in in G. specialize (U n).
      rewrite count_key_cons, str_eqb_refl in U. lia. }
    assert (S : forall ev, In ev (evs ++ block) ->
               ev = SavedUnavailable name f \/ ev = SavedAvailable name f ->
               In ev block -> In (DownloadFailed name url e) block -> False).
    { intros ev _ K Hb Hd.
      destruct (@block_in _ _ _ _ B Hd) as [C|[C|[(e' & C & Eb)|[C _]]]].
      - simpl in C. congruence.
      - discriminate.
      - rewrite Eb in Hb.
        destruct Hb as [Hb|[Hb|[]]]; destruct K; congruence.
      - destruct C as [C|[C|[[? C]|[? C]]]]; discriminate. }
    assert (T : forall ev, In ev (evs ++ block) ->
               ev = SavedUnavailable name f \/ ev = SavedAvailable name f ->
               False).
    { intros ev Hev K.
      apply in_app_or in H. apply in_app_or in Hev.
      destruct H as [H|H], Hev as [Hev|Hev].
      - destruct (IH U' name url e f H) as [A1 A2].
        destruct K; subst; contradiction.
      - assert (name = n).
        { destruct (@block_in _ _ _ _ B Hev) as [C|[C|[(e' & C & _)|[C _]]]];
            destruct K; subst; simpl in *; try congruence;
            destruct C as [C|[C|[[? C]|[? C]]]]; congruence. }
        subst n. apply (R _ H). left. eauto.
      - assert (name = n).
        { destruct (@block_in _ _ _ _ B H) as [C|[C|[(e' & C & _)|[C _]]]];
            simpl in *; try congruence;
            destruct C as [C|[C|[[? C]|[? C]]]]; congruence. }
        subst n. apply (R _ Hev). destruct K; subst; eauto.
      - eapply S; eauto. apply in_or_app. right. exact Hev. }
    split; intro G; eapply T; eauto.
Qed.

(** Every item is downloaded, and either its download failed or its
    playlist has a report. *)
Lemma loop_events_outcome : forall items evs,
  loop_events items evs ->
  forall name url, In (name, url) items ->
    In (Downloading name url) evs
    /\ ((exists e, In (DownloadFailed name url e) evs)
        \/ (In (SavedUnavailable name (unavailable_path name)) evs
            /\ In (SavedAvailable name (available_path name)) evs)).
Proof.
  induction 1 as [|n u rest block evs B _ IH]; intros name url H.
  - contradiction.
  - destruct H as [H|H].
    + inversion H; subst. destruct (@block_outcome _ _ _ B) as [D O].
      split; [apply in_or_app; right; exact D|].
      destruct O as [[e O]|[O1 O2]].
      * left. exists e. apply in_or_app. right. exact O.
      * right. split; apply in_or_app; right; assumption.
    + destruct (IH name url H) as [D O].
      split; [apply in_or_app; left; exact D|].
      destruct O as [[e O]|[O1 O2]].
      * left. exists e. apply in_or_app. left. exact O.
      * right. split; apply in_or_app; left; assumption.
Qed.

(** ** The orchestrator *)

Lemma new_events_app : forall (World : Type) (st st' : state World) evs,
  log st' = evs ++ log st -> new_events st st' = evs.
Proof.
  intros World st st' evs H. unfold new_events. rewrite H, length_app.
  replace (length evs + length (log st) - length (log st))
    with (length evs) by lia.
  rewrite firstn_app, firstn_all, Nat.sub_diag. simpl. apply app_nil_r.
Qed.

Lemma playlist_path_truthy : forall name,
  truthy (Some (path_join M3U_FOLDER (name ++ lit ".m3u"))) = true.
Proof.
  intro name. unfold path_join.
  destruct (startswith (lit "/") (name ++ lit ".m3u")) eqn:E.
  - destruct name; reflexivity.
  - reflexivity.
Qed.

Section Orchestrator.

Variable unicode_alnum : char -> bool.
Variable World : Type.
Variable requests_get : str -> World -> reply * World.
Variable requests_head : str -> World -> reply * World.

Local Abbreviation clean := (clean_category_name unicode_alnum).
Local Abbreviation check := (check_url_availability requests_head).
Local Abbreviation loop := (check_lines requests_head).
Local Abbreviation download := (download_m3u_file requests_get).
Local Abbreviation process := (process_m3u_file requests_head).
Local Abbreviation run_items :=
  (download_and_process requests_get requests_head).
Local Abbreviation extract := (extract_m3u_links_with_names unicode_alnum).
Local Abbreviation fetch := (fetch_readme requests_get).
Local Abbreviation run := (main unicode_alnum requests_get requests_head).

Lemma check_effect : forall url (st : state World),
  exists ev,
    log (snd (check url st)) = ev :: log st
    /\ class_of_event ev <> None
    /\ files (snd (check url st)) = files st.
Proof.
  intros url st. unfold check_url_availability, http_head.
  destruct (requests_head url (world st)) as [[response|e] w]; simpl.
  - destruct (N.eqb (status_code response) 200); simpl;
      eexists; (split; [reflexivity|]); split;
      try reflexivity; discriminate.
  - eexists. split; [reflexivity|]. split; [discriminate|reflexivity].
Qed.

Lemma loop_effect : forall lines m av un (st : state World),
  exists probes,
    log (snd (loop lines m av un st)) = probes ++ log st
    /\ Forall (fun ev => class_of_event ev <> None) probes
    /\ files (snd (loop lines m av un st)) = files st.
Proof.
  induction lines as [|raw rest IH]; intros m av un st.
  - exists []. simpl. auto.
  - simpl.
    destruct (startswith (lit "#EXTINF") (strip raw)); [apply IH|].
    destruct (startswith (lit "http") (strip raw)); [|apply IH].
    destruct (check_effect (strip raw) st) as (ev & L & C & F).
    destruct (check (strip raw) st) as [ok st1]. simpl in L, F.
    assert (G : forall av' un',
               exists probes,
                 log (snd (loop rest m av' un' st1)) = probes ++ log st
                 /\ Forall (fun ev => class_of_event ev <> None) probes
                 /\ files (snd (loop rest m av' un' st1)) = files st).
    { intros av' un'. destruct (IH m av' un' st1) as (ps & L1 & C1 & F1).
      exists (ps ++ [ev]). rewrite L1, L, F1, F, <- app_assoc.
      split; [reflexivity|]. split; [|reflexivity].
      apply Forall_app. split; [exact C1|]. constructor; [exact C|].
      constructor. }
    destruct ok; apply G.
Qed.

Lemma process_effect : forall name f content (st : state World),
  read_file f (files st) = Some content ->
  exists probes,
    log (process name f st)
    = SavedUnavailable name (unavailable_path name)
        :: SavedAvailable name (available_path name)
        :: probes ++ Processing f :: log st
    /\ Forall (fun ev => class_of_event ev <> None) probes
    /\ (forall p, read_file p (files st) <> None ->
                  read_file p (files (process name f st)) <> None)
    /\ read_file (available_path name) (files (process name f st)) <> None
    /\ read_file (unavailable_path name) (files (process name f st))
       <> None.
Proof.
  intros name f content st H. unfold process_m3u_file.
  simpl files. rewrite H.
  destruct (loop_effect (readlines content) [] [] []
              (logging (Processing f) st)) as (probes & L & C & F).
  destruct (loop (readlines content) [] [] []
              (logging (Processing f) st)) as [[av un] st1].
  simpl in L, F. exists probes. simpl. rewrite L, F.
  split; [reflexivity|]. split; [exact C|]. unfold read_file. simpl.
  split; [|split].
  - intros p Hp.
    destruct (str_eqb p (unavailable_path name)); [discriminate|].
    destruct (str_eqb p (available_path name)); [discriminate|exact Hp].
  - rewrite !str_eqb_refl. discriminate.
  - rewrite !str_eqb_refl. discriminate.
Qed.

Lemma download_effect : forall name url (st : state World),
  let r := fst (download name url st) in
  let st' := snd (download name url st) in
  requests st' = GET url :: requests st
  /\ ((exists e,
         r = None
         /\ log st' = DownloadFailed name url e :: Downloading name url
                        :: log st
         /\ files st' = files st)
      \/ (exists content,
            r = Some (path_join M3U_FOLDER (name ++ lit ".m3u"))
            /\ log st'
               = SavedPlaylist (path_join M3U_FOLDER (name ++ lit ".m3u"))
                   :: Downloading name url :: log st
            /\ files st'
               = (path_join M3U_FOLDER (name ++ lit ".m3u"), content)
                   :: files st)).
Proof.
  intros name url st. unfold download_m3u_file, http_get. simpl.
  destruct (requests_get url (world st)) as [[response|e] w]; simpl.
  - destruct (raise_for_status response) as [e|]; simpl.
    + split; [reflexivity|]. left. exists e. auto.
    + split; [reflexivity|]. right. exists (text response). auto.
  - split; [reflexivity|]. left. exists e. auto.
Qed.

Lemma run_items_effect : forall items (st : state World),
  exists evs,
    log (run_items items st) = evs ++ log st
    /\ loop_events items evs
    /\ (forall p, read_file p (files st) <> None ->
                  read_file p (files (run_items items st)) <> None)
    /\ (forall name f,
          In (SavedUnavailable name f) evs ->
          read_file (available_path name) (files (run_items items st))
          <> None
          /\ read_file (unavailable_path name) (files (run_items items st))
             <> None).
Proof.
  induction items as [|[name url] rest IH]; intro st.
  - exists []. simpl. split; [reflexivity|]. split; [constructor|].
    split; [auto|]. intros name f [].
  - simpl.
    destruct (download_effect name url st) as [_ [(e & R & L & F)|
                                                   (content & R & L & F)]];
      destruct (download name url st) as [r st1]; simpl in R, L, F; subst r.
    + simpl. destruct (IH st1) as (evs & L1 & E1 & M1 & P1).
      exists (evs ++ [DownloadFailed name url e; Downloading name url]).
      rewrite L1, L, <- app_assoc. split; [reflexivity|].
      split; [constructor; [constructor|exact E1]|].
      split; [intros p Hp; apply M1; rewrite F; exact Hp|].
      intros n f H. apply in_app_or in H. destruct H as [H|H].
      * eapply P1. exact H.
      * destruct H as [H|[H|[]]]; discriminate.
    + rewrite playlist_path_truthy.
      set (file := path_join M3U_FOLDER (name ++ lit ".m3u")) in *.
      assert (Rd : read_file file (files st1) = Some content).
      { rewrite F. unfold read_file. simpl. rewrite str_eqb_refl.
        reflexivity. }
      destruct (process_effect name file st1 Rd)
        as (probes & L2 & C2 & M2 & A2 & U2).
      destruct (IH (process name file st1)) as (evs & L1 & E1 & M1 & P1).
      exists (evs ++ SavedUnavailable name (unavailable_path name)
                :: SavedAvailable name (available_path name)
                :: probes ++ [Processing file; SavedPlaylist file;
                              Downloading name url]).
      rewrite L1, L2, L, <- !app_assoc. simpl. rewrite <- !app_assoc.
      split; [reflexivity|].
      split; [constructor; [constructor; exact C2|exact E1]|].
      split.
      * intros p Hp. apply M1, M2. rewrite F. unfold read_file. simpl.
        destruct (str_eqb p file); [discriminate|exact Hp].
      * intros n f H. apply in_app_or in H. destruct H as [H|H].
        -- eapply P1. exact H.
        -- assert (n = name).
           { destruct H as [H|[H|H]]; try congruence.
             apply in_app_or in H. destruct H as [H|[H|[H|[H|[]]]]];
               try discriminate.
             apply (@probe_in _ _ C2) in H. simpl in H. congruence. }
           subst n. split; apply M1; assumption.
Qed.

Lemma fetch_effect : forall url (st : state World),
  requests (snd (fetch url st)) = GET url :: requests st
  /\ files (snd (fetch url st)) = files st
  /\ ((exists e,
         fst (fetch url st) = None
         /\ log (snd (fetch url st))
            = FetchReadmeError e :: FetchingReadme url :: log st)
      \/ (exists content,
            fst (fetch url st) = Some content
            /\ log (snd (fetch url st))
               = FetchedReadme :: FetchingReadme url :: log st)).
Proof.
  intros url st. unfold fetch_readme, http_get. simpl.
  destruct (requests_get url (world st)) as [[response|e] w]; simpl.
  - destruct (raise_for_status response) as [e|]; simpl.
    + split; [reflexivity|]. split; [reflexivity|]. left. eauto.
    + split; [reflexivity|]. split; [reflexivity|]. right. eauto.
  - split; [reflexivity|]. split; [reflexivity|]. left. eauto.
Qed.

Lemma extract_nothing : forall (st : state World),
  fst (extract [] st) = [].
Proof. reflexivity. Qed.




End Orchestrator.



(** * The theorems at work on the sample world *)

Lemma extracted_urls_are_https_playlists_witness :
  dict_get (lit "News")
    (fst (extract_m3u_links_with_names Sample.alnum_table
            Sample.index_document Sample.start))
  = Some Sample.news_url
  /\ startswith (lit "https://") Sample.news_url = true
  /\ forallb nonspace Sample.news_url = true
  /\ (endswith (lit ".m3u") Sample.news_url = true
      \/ endswith (lit ".m3u8") Sample.news_url = true).
Proof.
  split; [reflexivity|].
  apply (@extracted_urls_are_https_playlists Sample.alnum_table nat
           Sample.index_document Sample.start (lit "News")).
  reflexivity.
Defined.

Lemma later_record_wins_witness :
  findall m3u_pattern Sample.duplicate_document
  = [] ++ (lit "News", Sample.old_news_url)
       :: [] ++ (lit "News!", Sample.news_url) :: []
  /\ Sample.old_news_url <> Sample.news_url
  /\ count_key (lit "News")
       (fst (extract_m3u_links_with_names Sample.alnum_table
               Sample.duplicate_document Sample.start)) = 1
  /\ dict_get (lit "News")
       (fst (extract_m3u_links_with_names Sample.alnum_table
               Sample.duplicate_document Sample.start))
     = Some Sample.news_url.
Proof.
  split; [reflexivity|]. split; [discriminate|].
  apply (@later_record_wins Sample.alnum_table nat
           Sample.duplicate_document Sample.start
           [] (lit "News") Sample.old_news_url
           [] (lit "News!") Sample.news_url []).
  - reflexivity.
  - reflexivity.
  - discriminate.
  - intros n u [].
Defined.



Lemma url_line_takes_latest_metadata_witness :
  (forall l, In l [lit "http://b.test/2"] ->
             startswith (lit "#EXTINF") (strip l) = false)
  /\ startswith (lit "http") (strip (lit "https://c.test/3")) = true
  /\ startswith (lit "#EXTINF") (strip (lit "#EXTINF:-1,Channel B")) = true
  /\ fst (check_lines Sample.sample_head
            ([lit "#EXTM3U"] ++ lit "#EXTINF:-1,Channel B"
               :: [lit "http://b.test/2"] ++ [lit "https://c.test/3"])
            [] [] [] Sample.start)
     = ([],
        [entry (lit "#EXTINF:-1,Channel B") (lit "http://b.test/2");
         entry (lit "#EXTINF:-1,Channel B") (lit "https://c.test/3")]).
Proof.
  assert (N : forall l, In l [lit "http://b.test/2"] ->
                startswith (lit "#EXTINF") (strip l) = false).
  { intros l [<-|[]]. reflexivity. }
  split; [exact N|]. split; [reflexivity|]. split; [reflexivity|].
  rewrite (proj1 (@url_line_takes_latest_metadata nat Sample.sample_head
                    [lit "#EXTM3U"] (lit "#EXTINF:-1,Channel B")
                    [lit "http://b.test/2"] (lit "https://c.test/3")
                    [] [] [] Sample.start N eq_refl) eq_refl).
  reflexivity.
Defined.




(** * Further properties of the script *)

(** ** Fetching and downloading *)

Lemma raise_for_status_none : forall r,
  raise_for_status r = None <-> is_error_status (status_code r) = false.
Proof.
  intro r. unfold raise_for_status, is_error_status.
  destruct ((400 <=? status_code r) && (status_code r <? 500))%N eqn:A.
  - split; [discriminate|]. intro H. exfalso.
    apply andb_true_iff in A. destruct A as [A1 A2].
    apply andb_false_iff in H. apply N.leb_le in A1. apply N.ltb_lt in A2.
    destruct H as [H|H]; [apply N.leb_gt in H|apply N.ltb_ge in H]; lia.
  - destruct ((500 <=? status_code r) && (status_code r <? 600))%N eqn:B.
    + split; [discriminate|]. intro H. exfalso.
      apply andb_true_iff in B. destruct B as [B1 B2].
      apply andb_false_iff in H. apply N.leb_le in B1. apply N.ltb_lt in B2.
      destruct H as [H|H]; [apply N.leb_gt in H|apply N.ltb_ge in H]; lia.
    + split; [|reflexivity]. intros _.
      apply andb_false_iff. apply andb_false_iff in A, B.
      destruct (N.leb_spec 400 (status_code r)); [|left; reflexivity].
      right. apply N.ltb_ge.
      destruct A as [A|A]; [discriminate A|apply N.ltb_ge in A].
      destruct B as [B|B]; [apply N.leb_gt in B; lia|apply N.ltb_ge in B].
      exact B.
Qed.

Lemma playlist_path_cases : forall name,
  (exists rest, playlist_path name = lit "/" ++ rest)
  \/ playlist_path name = lit "m3u_files/" ++ name ++ lit ".m3u".
Proof.
  intro name. unfold playlist_path, path_join.
  destruct (startswith (lit "/") (name ++ lit ".m3u")) eqn:E.
  - left. apply startswith_sound in E. exact E.
  - right. reflexivity.
Qed.

Section Fetching.

Variable World : Type.
Variable requests_get : str -> World -> reply * World.




End Fetching.

(** ** More on the name normalizer *)

Lemma lstrip_all_space : forall s,
  lstrip s = [] <-> (forall c, In c s -> is_space c = true).
Proof.
  induction s as [|a s IH]; simpl.
  - split; [intros _ c []|reflexivity].
  - destruct (is_space a) eqn:E.
    + rewrite IH. split.
      * intros H c [<-|Hc]; [exact E|apply H; exact Hc].
      * intros H c Hc. apply H. right. exact Hc.
    + split; [discriminate|]. intro H.
      rewrite (H a) in E by (left; reflexivity). discriminate.
Qed.

Lemma lstrip_head : forall s a t,
  lstrip s = a :: t -> is_space a = false.
Proof.
  induction s as [|b s IH]; simpl; intros a t H.
  - discriminate.
  - destruct (is_space b) eqn:E; [eapply IH; exact H|].
    inversion H; subst. exact E.
Qed.

Lemma strip_all_space : forall s,
  strip s = [] <-> (forall c, In c s -> is_space c = true).
Proof.
  intro s. unfold strip, rstrip. split.
  - intro H. apply (f_equal (@rev char)) in H.
    rewrite rev_involutive in H. simpl in H.
    apply lstrip_all_space.
    destruct (lstrip s) as [|a t] eqn:E; [reflexivity|].
    exfalso. pose proof (lstrip_head _ E) as Ha.
    rewrite lstrip_all_space in H.
    rewrite (H a) in Ha; [discriminate|].
    apply in_rev. rewrite rev_involutive. left. reflexivity.
  - intro H. apply lstrip_all_space in H. rewrite H. reflexivity.
Qed.

Lemma collapse_nil : forall s, collapse_spaces false s = [] <-> s = [].
Proof.
  intros [|a s]; simpl.
  - tauto.
  - destruct (is_space a); split; discriminate.
Qed.

Lemma startswith_one : forall a c rest,
  startswith [a] (c :: rest) = N.eqb a c.
Proof.
  intros a c rest. unfold startswith. cbn [strip_prefix].
  destruct (N.eqb a c); reflexivity.
Qed.

Section NormalizerMore.

Variable unicode_alnum : char -> bool.

(** X4: what the normalizer returns is made of alphanumeric characters
    and underscores only; it holds no white space, no slash and no
    dot, so the playlist of a normalized name is saved inside
    [m3u_files], under the name followed by [.m3u]. *)
Theorem normalized_name_is_a_plain_file_name : forall name,
  (forall c, In c (clean_category_name unicode_alnum name) ->
     (is_alnum unicode_alnum c || N.eqb c underscore) = true
     /\ is_space c = false /\ c <> 47%N /\ c <> 46%N)
  /\ playlist_path (clean_category_name unicode_alnum name)
     = lit "m3u_files/" ++ clean_category_name unicode_alnum name
         ++ lit ".m3u".
Proof.
  intro name.
  assert (A : forall c, In c (clean_category_name unicode_alnum name) ->
     (is_alnum unicode_alnum c || N.eqb c underscore) = true
     /\ is_space c = false /\ c <> 47%N /\ c <> 46%N).
  { intros c H. destruct (clean_chars unicode_alnum name c H) as [W S].
    split; [exact W|]. split; [exact S|].
    split; intros ->; discriminate. }
  split; [exact A|].
  unfold playlist_path, path_join.
  destruct (clean_category_name unicode_alnum name) as [|c s] eqn:E.
  - reflexivity.
  - destruct (A c (or_introl eq_refl)) as (_ & _ & Hs & _).
    change (lit "/") with [47%N].
    change ((c :: s) ++ lit ".m3u") with (c :: s ++ lit ".m3u").
    rewrite startswith_one.
    destruct (N.eqb_spec 47 c) as [F|_]; [congruence|]. reflexivity.
Qed.

(** X5: a name normalizes to the empty string exactly when, once
    [&nbsp;] is replaced by a space, each of its characters is white
    space or is neither alphanumeric nor an underscore. *)
Theorem normalized_name_is_empty_iff : forall name,
  clean_category_name unicode_alnum name = []
  <-> forall c, In c (replace (lit "&nbsp;") (lit " ") name) ->
        is_space c = true
        \/ (is_alnum unicode_alnum c || N.eqb c underscore) = false.
Proof.
  intro name. rewrite clean_stages, collapse_nil, strip_all_space.
  split.
  - intros H c Hc. destruct (is_space c) eqn:S; [left; reflexivity|].
    right.
    destruct (is_alnum unicode_alnum c || N.eqb c underscore) eqn:W;
      [|reflexivity].
    rewrite <- S. symmetry. apply H. apply filter_In. split; [exact Hc|].
    rewrite W. reflexivity.
  - intros H c Hc. apply filter_In in Hc. destruct Hc as [Hc K].
    destruct (H c Hc) as [S|W]; [exact S|].
    rewrite W in K. exact K.
Qed.

End NormalizerMore.

Lemma normalized_name_is_empty_iff_witness :
  (forall c, In c (replace (lit "&nbsp;") (lit " ") (lit "&nbsp;*!")) ->
     is_space c = true
     \/ (is_alnum Sample.alnum_table c || N.eqb c underscore) = false)
  /\ clean_category_name Sample.alnum_table (lit "&nbsp;*!") = [].
Proof.
  assert (H : forall c,
            In c (replace (lit "&nbsp;") (lit " ") (lit "&nbsp;*!")) ->
            is_space c = true
            \/ (is_alnum Sample.alnum_table c || N.eqb c underscore)
               = false).
  { intros c [<-|[<-|[<-|[]]]]; [left|right|right]; reflexivity. }
  split; [exact H|].
  apply (proj2 (normalized_name_is_empty_iff Sample.alnum_table
                  (lit "&nbsp;*!")) H).
Defined.

(** ** More on the link extractor *)

Lemma forallb_dot_no_line_feed : forall w,
  forallb dot w = true -> ~ In LF w.
Proof.
  induction w as [|a w IH]; simpl; intros H F.
  - exact F.
  - apply andb_true_iff in H. destruct H as [H1 H2].
    destruct F as [F|F]; [subst a; discriminate|].
    apply (IH H2 F).
Qed.

Lemma forallb_nonspace_no_line_feed : forall w,
  forallb nonspace w = true -> ~ In LF w.
Proof.
  induction w as [|a w IH]; simpl; intros H F.
  - exact F.
  - apply andb_true_iff in H. destruct H as [H1 H2].
    destruct F as [F|F]; [subst a; discriminate|].
    apply (IH H2 F).
Qed.

Lemma m3u_pattern_single_line : forall w caps,
  matches m3u_pattern w [] caps ->
  forallb dot (group 1 caps) = true /\ forallb dot w = true.
Proof.
  unfold m3u_pattern, Plus. intros w caps H. inv_matches.
  match goal with H : matches m3u_url_pattern _ _ _ |- _ =>
    apply m3u_url_pattern_matches in H;
    destruct H as [-> (body & tail & -> & _ & Hb & Ht)] end.
  assert (D : forall x, forallb nonspace x = true -> forallb dot x = true).
  { induction x as [|y x IH]; simpl; [reflexivity|]. intro H.
    apply andb_true_iff in H. destruct H as [H1 H2].
    rewrite (IH H2), andb_true_r. unfold nonspace in H1. unfold dot.
    destruct (N.eqb_spec y LF) as [->|_]; [discriminate|reflexivity]. }
  split.
  - simpl. repeat match goal with
           | H : dot _ = true |- _ => rewrite H
           | H : forallb dot _ = true |- _ => rewrite H
           end. reflexivity.
  - rewrite !forallb_app. simpl forallb.
    repeat match goal with
           | H : dot _ = true |- _ => rewrite H
           | H : forallb dot _ = true |- _ => rewrite H
           end.
    rewrite (D body Hb). destruct Ht as [-> | ->]; reflexivity.
Qed.

Lemma findall_from_sound_text : forall r s skip n u,
  In (n, u) (findall_from r skip s) ->
  exists pre w post caps,
    s = pre ++ w ++ post /\ matches r w [] caps
    /\ n = group 1 caps /\ u = group 2 caps.
Proof.
  induction s as [|a s IH]; simpl; intros skip n u H.
  - contradiction.
  - assert (G : forall k, In (n, u) (findall_from r k s) ->
               exists pre w post caps,
                 a :: s = pre ++ w ++ post /\ matches r w [] caps
                 /\ n = group 1 caps /\ u = group 2 caps).
    { intros k Hk. destruct (IH _ _ _ Hk) as (pre & w & post & caps & E & M).
      exists (a :: pre), w, post, caps. rewrite E. auto. }
    destruct skip as [|k]; [|eapply G; exact H].
    destruct (match_at r (a :: s)) as [[rest caps]|] eqn:E;
      [|eapply G; exact H].
    destruct H as [H|H]; [|eapply G; exact H].
    inversion H; subst. apply match_at_sound in E.
    destruct E as (w & E & M). exists [], w, rest, caps. auto.
Qed.

Lemma map_fst_dict_set : forall k v d,
  map fst (dict_set k v d)
  = if existsb (str_eqb k) (map fst d) then map fst d
    else map fst d ++ [k].
Proof.
  induction d as [|[k1 v1] d IH]; simpl.
  - reflexivity.
  - destruct (str_eqb k k1) eqn:E; simpl.
    + apply str_eqb_eq in E. subst k1. reflexivity.
    + rewrite IH. destruct (existsb (str_eqb k) (map fst d)); reflexivity.
Qed.

Lemma first_occurrences_length : forall keys seen,
  length (first_occurrences seen keys) <= length keys.
Proof.
  induction keys as [|k keys IH]; simpl; intro seen.
  - lia.
  - destruct (existsb (str_eqb k) seen); simpl.
    + specialize (IH seen). lia.
    + specialize (IH (seen ++ [k])). lia.
Qed.

Section ExtractorMore.

Variable unicode_alnum : char -> bool.
Variable World : Type.

Local Abbreviation clean := (clean_category_name unicode_alnum).
Local Abbreviation add :=
  (fun d m => dict_set (clean (fst m)) (snd m) d).

Lemma fold_add_origin : forall found d k v,
  dict_get k (fold_left add found d) = Some v ->
  (exists n, In (n, v) found /\ clean n = k) \/ dict_get k d = Some v.
Proof.
  induction found as [|[n u] ms IH]; simpl; intros d k v H.
  - right. exact H.
  - apply IH in H. destruct H as [(n' & Hin & E)|H].
    + left. exists n'. auto.
    + rewrite dict_get_set in H.
      destruct (str_eqb k (clean n)) eqn:E.
      * apply str_eqb_eq in E. inversion H; subst. left. exists n. auto.
      * right. exact H.
Qed.

Lemma fold_add_order : forall found d,
  map fst (fold_left add found d)
  = map fst d
      ++ first_occurrences (map fst d) (map (fun m => clean (fst m)) found).
Proof.
  induction found as [|[n u] ms IH]; simpl; intro d.
  - rewrite app_nil_r. reflexivity.
  - rewrite IH, map_fst_dict_set.
    destruct (existsb (str_eqb (clean n)) (map fst d)).
    + reflexivity.
    + rewrite <- app_assoc. reflexivity.
Qed.

(** X6: a name is a key of the mapping exactly when it is the
    normalized name of a record of the document, and the URL under a
    key is the URL of a record with that normalized name. *)
Theorem mapping_holds_the_record_names :
  forall doc (st : state World) k,
    let m3u_links :=
      fst (extract_m3u_links_with_names unicode_alnum doc st) in
    ((exists v, dict_get k m3u_links = Some v)
     <-> exists n u, In (n, u) (findall m3u_pattern doc)
                     /\ clean_category_name unicode_alnum n = k)
    /\ forall v, dict_get k m3u_links = Some v ->
         exists n, In (n, v) (findall m3u_pattern doc)
                   /\ clean_category_name unicode_alnum n = k.
Proof.
  intros doc st k m3u_links. subst m3u_links. rewrite extract_links.
  assert (O : forall v,
             dict_get k (links_of_matches unicode_alnum
                           (findall m3u_pattern doc)) = Some v ->
             exists n, In (n, v) (findall m3u_pattern doc) /\ clean n = k).
  { intros v H. rewrite links_of_matches_fold in H.
    apply fold_add_origin in H. destruct H as [H|H]; [exact H|].
    discriminate. }
  split; [split|exact O].
  - intros [v H]. destruct (O v H) as (n & Hin & E). eauto.
  - intros (n & u & Hin & <-). eapply links_keys. exact Hin.
Qed.

(** X7: the mapping lists the normalized names of the records in the
    order of their first record, each once; it has at most as many
    items as the document has records, and none when there is no
    record. *)
Theorem mapping_keeps_first_occurrence_order :
  forall doc (st : state World),
    let m3u_links :=
      fst (extract_m3u_links_with_names unicode_alnum doc st) in
    map fst m3u_links
    = first_occurrences []
        (map (fun m => clean_category_name unicode_alnum (fst m))
           (findall m3u_pattern doc))
    /\ length m3u_links <= length (findall m3u_pattern doc)
    /\ (m3u_links = [] <-> findall m3u_pattern doc = []).
Proof.
  intros doc st m3u_links. subst m3u_links. rewrite extract_links.
  assert (O : map fst (links_of_matches unicode_alnum
                         (findall m3u_pattern doc))
              = first_occurrences []
                  (map (fun m => clean (fst m)) (findall m3u_pattern doc))).
  { rewrite links_of_matches_fold, fold_add_order. reflexivity. }
  split; [exact O|]. split.
  - rewrite <- (length_map fst), O.
    rewrite <- (length_map (fun m => clean (fst m))
                  (findall m3u_pattern doc)).
    apply first_occurrences_length.
  - split.
    + intro H. rewrite H in O. simpl in O.
      destruct (findall m3u_pattern doc); [reflexivity|discriminate].
    + intros ->. reflexivity.
Qed.

(** X8: a record lies on one line of the document: neither the text it
    matches nor its name nor its URL holds a line feed, and its name is
    not empty. *)
Theorem records_lie_on_one_line :
  forall doc n u,
    In (n, u) (findall m3u_pattern doc) ->
    n <> [] /\ ~ In LF n /\ ~ In LF u
    /\ exists pre w post,
         doc = pre ++ w ++ post /\ ~ In LF w
         /\ startswith (lit "<td>") w = true
         /\ endswith (lit "</code>") w = true.
Proof.
  intros doc n u H. destruct (findall_m3u_pattern _ _ _ H) as [Hn Hu].
  split; [exact Hn|].
  unfold findall in H. apply findall_from_sound_text in H.
  destruct H as (pre & w & post & caps & E & M & -> & ->).
  destruct (m3u_pattern_single_line M) as [D1 D2].
  split; [apply forallb_dot_no_line_feed; exact D1|].
  split.
  - destruct Hu as (body & tail & -> & _ & Hb & Ht).
    apply forallb_nonspace_no_line_feed. rewrite !forallb_app, Hb.
    destruct Ht as [-> | ->]; reflexivity.
  - exists pre, w, post. split; [exact E|].
    split; [apply forallb_dot_no_line_feed; exact D2|].
    unfold m3u_pattern in M. inv_matches.
    split; [apply startswith_app|].
    rewrite !app_assoc. apply endswith_app.
Qed.

End ExtractorMore.

(** ** More on processing a playlist *)

Lemma new_requests_app : forall (World : Type) (st st' : state World) rs,
  requests st' = rs ++ requests st -> new_requests st st' = rs.
Proof.
  intros World st st' rs H. unfold new_requests. rewrite H, length_app.
  replace (length rs + length (requests st) - length (requests st))
    with (length rs) by lia.
  rewrite firstn_app, firstn_all, Nat.sub_diag. simpl. apply app_nil_r.
Qed.

Lemma probed_urls_entries : forall lines m,
  length (entries_from m lines) = length (probed_urls lines).
Proof.
  induction lines as [|raw rest IH]; simpl; intro m.
  - reflexivity.
  - destruct (startswith (lit "#EXTINF") (strip raw)); [apply IH|].
    destruct (startswith (lit "http") (strip raw)); [|apply IH].
    simpl. rewrite IH. reflexivity.
Qed.

Section PlaylistMore.

Variable World : Type.
Variable requests_head : str -> World -> reply * World.

Local Abbreviation check := (check_url_availability requests_head).
Local Abbreviation loop := (check_lines requests_head).
Local Abbreviation process := (process_m3u_file requests_head).

Lemma loop_app : forall xs ys m av un (st : state World),
  loop (xs ++ ys) m av un st
  = let '(av1, un1, st1) := loop xs m av un st in
    loop ys (metadata_after m xs) av1 un1 st1.
Proof.
  induction xs as [|raw rest IH]; intros ys m av un st.
  - reflexivity.
  - simpl.
    destruct (startswith (lit "#EXTINF") (strip raw)); [apply IH|].
    destruct (startswith (lit "http") (strip raw)); [|apply IH].
    destruct (check (strip raw) st) as [[|] st1]; apply IH.
Qed.

(** X9: processing a list of lines in two parts gives what processing
    it at once gives: the second part starts from the partitions, the
    state and the metadata that the first part leaves; the entries of
    the whole are those of the first part followed by those of the
    second. *)
Theorem check_lines_composes :
  forall xs ys m av un (st : state World),
    check_lines requests_head (xs ++ ys) m av un st
    = (let '(av1, un1, st1) := check_lines requests_head xs m av un st in
       check_lines requests_head ys (metadata_after m xs) av1 un1 st1)
    /\ entries_from m (xs ++ ys)
       = entries_from m xs ++ entries_from (metadata_after m xs) ys.
Proof.
  intros xs ys m av un st. split; [apply loop_app|].
  revert m. induction xs as [|raw rest IH]; intro m.
  - reflexivity.
  - simpl.
    destruct (startswith (lit "#EXTINF") (strip raw)); [apply IH|].
    destruct (startswith (lit "http") (strip raw)); [|apply IH].
    simpl. rewrite IH. reflexivity.
Qed.

Lemma loop_without_urls : forall xs m av un (st : state World),
  (forall l, In l xs -> startswith (lit "http") (strip l) = false) ->
  loop xs m av un st = (av, un, st).
Proof.
  induction xs as [|raw rest IH]; intros m av un st H.
  - reflexivity.
  - assert (H' : forall l, In l rest ->
                   startswith (lit "http") (strip l) = false)
      by (intros l Hl; apply H; right; exact Hl).
    simpl. rewrite (H raw) by (left; reflexivity).
    destruct (startswith (lit "#EXTINF") (strip raw)); apply IH; exact H'.
Qed.

(** X10: lines after the last URL line add nothing: a metadata line
    that no URL line follows has no entry, and neither have blank
    lines, comments or directives. *)
Theorem lines_after_the_last_url_add_nothing :
  forall before tail m av un (st : state World),
    (forall l, In l tail -> startswith (lit "http") (strip l) = false) ->
    check_lines requests_head (before ++ tail) m av un st
    = check_lines requests_head before m av un st.
Proof.
  intros before tail m av un st H. rewrite loop_app.
  destruct (loop before m av un st) as [[av1 un1] st1].
  apply loop_without_urls. exact H.
Qed.

(** X11: a metadata line overwrites what was pending: the lines
    between a URL line and the next metadata line, metadata lines among
    them, have no effect on the result. *)
Theorem metadata_line_overwrites_pending_metadata :
  forall before dropped meta_line after m av un (st : state World),
    (forall l, In l dropped -> startswith (lit "http") (strip l) = false) ->
    startswith (lit "#EXTINF") (strip meta_line) = true ->
    check_lines requests_head (before ++ dropped ++ meta_line :: after)
      m av un st
    = check_lines requests_head (before ++ meta_line :: after) m av un st.
Proof.
  intros before dropped meta_line after m av un st H M.
  rewrite !loop_app.
  destruct (loop before m av un st) as [[av1 un1] st1].
  rewrite loop_app, loop_without_urls by exact H.
  simpl. rewrite M. reflexivity.
Qed.

(** X12: a line that starts neither with [#EXTINF] nor with [http],
    once stripped, can be taken out of a playlist anywhere without
    changing the result. *)
Theorem other_lines_are_ignored :
  forall before l after m av un (st : state World),
    startswith (lit "#EXTINF") (strip l) = false ->
    startswith (lit "http") (strip l) = false ->
    check_lines requests_head (before ++ l :: after) m av un st
    = check_lines requests_head (before ++ after) m av un st.
Proof.
  intros before l after m av un st E H. rewrite !loop_app.
  destruct (loop before m av un st) as [[av1 un1] st1].
  simpl. rewrite E, H. reflexivity.
Qed.

Lemma check_requests : forall url (st : state World),
  requests (snd (check url st)) = HEAD url :: requests st.
Proof.
  intros url st. unfold check_url_availability, http_head.
  destruct (requests_head url (world st)) as [[response|e] w]; simpl.
  - destruct (N.eqb (status_code response) 200); reflexivity.
  - reflexivity.
Qed.

Lemma loop_requests : forall lines m av un (st : state World),
  requests (snd (loop lines m av un st))
  = rev (map HEAD (probed_urls lines)) ++ requests st.
Proof.
  induction lines as [|raw rest IH]; intros m av un st.
  - reflexivity.
  - simpl.
    destruct (startswith (lit "#EXTINF") (strip raw)); [apply IH|].
    destruct (startswith (lit "http") (strip raw)); [|apply IH].
    pose proof (check_requests (strip raw) st) as R.
    destruct (check (strip raw) st) as [[|] st1]; simpl in R;
      rewrite IH, R; simpl; rewrite <- app_assoc; reflexivity.
Qed.

Lemma loop_lengths : forall lines m av un (st : state World),
  length (fst (fst (loop lines m av un st)))
  + length (snd (fst (loop lines m av un st)))
  = length av + length un + length (probed_urls lines).
Proof.
  intros lines m av un st.
  destruct (loop_partitions requests_head lines m av un st)
    as (a & u & E & P).
  destruct (loop lines m av un st) as [[av1 un1] st1]. simpl in *.
  inversion E; subst. rewrite !length_app.
  apply stable_partition_length in P.
  rewrite probed_urls_entries in P. lia.
Qed.


Lemma process_frame : forall name file_path (st : state World) p,
  p <> available_path name -> p <> unavailable_path name ->
  read_file p (files (process name file_path st)) = read_file p (files st).
Proof.
  intros name file_path st p Ha Hu. unfold process_m3u_file. simpl files.
  apply str_eqb_neq in Ha, Hu.
  destruct (read_file file_path (files st)) as [content|];
    [|reflexivity].
  destruct (loop_effect requests_head (readlines content) [] [] []
              (logging (Processing file_path) st)) as (ps & _ & _ & F).
  destruct (loop (readlines content) [] [] []
              (logging (Processing file_path) st)) as [[av un] st1].
  simpl in *. unfold read_file. simpl. rewrite Ha, Hu, F. reflexivity.
Qed.

Lemma process_requests : forall name file_path (st : state World),
  exists urls,
    requests (process name file_path st) = map HEAD urls ++ requests st.
Proof.
  intros name file_path st. unfold process_m3u_file. simpl files.
  destruct (read_file file_path (files st)) as [content|].
  - pose proof (loop_requests (readlines content) [] [] []
                  (logging (Processing file_path) st)) as R.
    destruct (loop (readlines content) [] [] []
                (logging (Processing file_path) st)) as [[av un] st1].
    simpl in *. exists (rev (probed_urls (readlines content))).
    rewrite map_rev. exact R.
  - exists []. reflexivity.
Qed.



End PlaylistMore.

(** ** The files of different playlists *)

Lemma first_char_differs : forall (a b : char) x y,
  a <> b -> a :: x <> b :: y.
Proof. intros a b x y H E. inversion E. contradiction. Qed.

Lemma playlist_path_absolute : forall name,
  startswith (lit "/") (name ++ lit ".m3u") = true ->
  playlist_path name = name ++ lit ".m3u".
Proof.
  intros name H. unfold playlist_path, path_join. rewrite H. reflexivity.
Qed.

Lemma playlist_path_relative : forall name,
  startswith (lit "/") (name ++ lit ".m3u") = false ->
  playlist_path name = lit "m3u_files/" ++ name ++ lit ".m3u".
Proof.
  intros name H. unfold playlist_path, path_join. rewrite H. reflexivity.
Qed.

Lemma playlist_path_head : forall name,
  exists rest,
    playlist_path name = 47%N :: rest \/ playlist_path name = 109%N :: rest.
Proof.
  intro name.
  destruct (startswith (lit "/") (name ++ lit ".m3u")) eqn:E.
  - rewrite (playlist_path_absolute _ E). apply startswith_sound in E.
    destruct E as [r ->]. exists r. left. reflexivity.
  - rewrite (playlist_path_relative _ E). eexists. right. reflexivity.
Qed.

Lemma playlist_path_injective : forall n1 n2,
  playlist_path n1 = playlist_path n2 -> n1 = n2.
Proof.
  intros n1 n2 H.
  destruct (startswith (lit "/") (n1 ++ lit ".m3u")) eqn:E1;
    destruct (startswith (lit "/") (n2 ++ lit ".m3u")) eqn:E2.
  - rewrite (playlist_path_absolute _ E1), (playlist_path_absolute _ E2)
      in H.
    apply app_inv_tail in H. exact H.
  - rewrite (playlist_path_absolute _ E1), (playlist_path_relative _ E2)
      in H.
    apply startswith_sound in E1. destruct E1 as [r E1].
    rewrite E1 in H. discriminate.
  - rewrite (playlist_path_relative _ E1), (playlist_path_absolute _ E2)
      in H.
    apply startswith_sound in E2. destruct E2 as [r E2].
    rewrite E2 in H. discriminate.
  - rewrite (playlist_path_relative _ E1), (playlist_path_relative _ E2)
      in H.
    apply app_inv_head in H. apply app_inv_tail in H. exact H.
Qed.

Lemma available_path_injective : forall n1 n2,
  available_path n1 = available_path n2 -> n1 = n2.
Proof.
  intros n1 n2 H. rewrite !available_path_eq in H.
  apply app_inv_head in H. apply app_inv_tail in H. exact H.
Qed.

Lemma unavailable_path_injective : forall n1 n2,
  unavailable_path n1 = unavailable_path n2 -> n1 = n2.
Proof.
  intros n1 n2 H. rewrite !unavailable_path_eq in H.
  apply app_inv_head in H. apply app_inv_tail in H. exact H.
Qed.

Lemma available_is_not_unavailable : forall n1 n2,
  available_path n1 <> unavailable_path n2.
Proof. intros n1 n2 H. discriminate. Qed.

Lemma playlist_is_not_available : forall n1 n2,
  playlist_path n1 <> available_path n2.
Proof.
  intros n1 n2 H. destruct (playlist_path_head n1) as [r [E|E]];
    rewrite E in H; discriminate.
Qed.

Lemma playlist_is_not_unavailable : forall n1 n2,
  playlist_path n1 <> unavailable_path n2.
Proof.
  intros n1 n2 H. destruct (playlist_path_head n1) as [r [E|E]];
    rewrite E in H; discriminate.
Qed.


(** ** More on the orchestrator *)

Lemma loop_events_no_processing_error : forall items evs,
  loop_events items evs ->
  forall name e, ~ In (ProcessingError name e) evs.
Proof.
  induction 1 as [|n u rest block evs B _ IH]; intros name e H.
  - contradiction.
  - apply in_app_or in H. destruct H as [H|H]; [eapply IH; exact H|].
    destruct (@block_in _ _ _ _ B H) as [C|[C|[(e' & C & _)|[C _]]]].
    + simpl in C. congruence.
    + discriminate.
    + discriminate.
    + destruct C as [C|[C|[[? C]|[? C]]]]; discriminate.
Qed.

Lemma filter_get_heads : forall urls, filter is_get (map HEAD urls) = [].
Proof. induction urls as [|u urls IH]; simpl; [reflexivity|exact IH]. Qed.

Section OrchestratorMore.

Variable unicode_alnum : char -> bool.
Variable World : Type.
Variable requests_get : str -> World -> reply * World.
Variable requests_head : str -> World -> reply * World.

Local Abbreviation check := (check_url_availability requests_head).
Local Abbreviation loop := (check_lines requests_head).
Local Abbreviation download := (download_m3u_file requests_get).
Local Abbreviation process := (process_m3u_file requests_head).
Local Abbreviation run_items :=
  (download_and_process requests_get requests_head).
Local Abbreviation extract := (extract_m3u_links_with_names unicode_alnum).
Local Abbreviation fetch := (fetch_readme requests_get).
Local Abbreviation run := (main unicode_alnum requests_get requests_head).


Lemma run_items_requests : forall items (st : state World),
  exists rs,
    requests (run_items items st) = rs ++ requests st
    /\ filter is_get rs = rev (map (fun kv => GET (snd kv)) items).
Proof.
  induction items as [|[name url] rest IH]; intro st.
  - exists []. split; reflexivity.
  - simpl.
    destruct (download_effect requests_get name url st) as [Rq _].
    destruct (download name url st) as [r st1]. simpl in Rq.
    assert (G : forall st2 urls,
               requests st2 = map HEAD urls ++ requests st1 ->
               exists rs,
                 requests (run_items rest st2) = rs ++ requests st
                 /\ filter is_get rs
                    = rev (map (fun kv => GET (snd kv)) rest) ++ [GET url]).
    { intros st2 urls H. destruct (IH st2) as (rs & R & F).
      exists (rs ++ map HEAD urls ++ [GET url]).
      rewrite R, H, Rq, <- !app_assoc. split; [reflexivity|].
      rewrite !filter_app, F, filter_get_heads. reflexivity. }
    destruct (truthy r).
    + destruct r as [f|]; [|apply (G st1 []); reflexivity].
      destruct (process_requests requests_head name f st1) as [urls H].
      apply (G _ urls). exact H.
    + apply (G st1 []). reflexivity.
Qed.


Lemma run_items_frame : forall items (st : state World) p,
  (forall n u, In (n, u) items ->
     p <> playlist_path n /\ p <> available_path n
     /\ p <> unavailable_path n) ->
  read_file p (files (run_items items st)) = read_file p (files st).
Proof.
  induction items as [|[name url] rest IH]; intros st p H.
  - reflexivity.
  - assert (H' : forall n u, In (n, u) rest ->
                   p <> playlist_path n /\ p <> available_path n
                   /\ p <> unavailable_path n)
      by (intros n u Hn; apply (H n u); right; exact Hn).
    destruct (H name url (or_introl eq_refl)) as (Hp & Ha & Hu).
    simpl.
    destruct (download_effect requests_get name url st)
      as [_ [(e & R & _ & F)|(content & R & _ & F)]];
      destruct (download name url st) as [r st1]; simpl in R, F; subst r.
    + simpl. rewrite IH by exact H'. rewrite F. reflexivity.
    + rewrite playlist_path_truthy. fold (playlist_path name) in *.
      rewrite IH by exact H'.
      rewrite (process_frame requests_head) by assumption.
      rewrite F. unfold read_file. simpl.
      apply str_eqb_neq in Hp. rewrite Hp. reflexivity.
Qed.

Lemma other_names : forall (rest : dict) name url n u,
  (forall k, count_key k ((name, url) :: rest) <= 1) ->
  In (n, u) rest -> n <> name.
Proof.
  intros rest name url n u U H E. subst n.
  apply count_key_in in H. specialize (U name).
  rewrite count_key_cons, str_eqb_refl in U. lia.
Qed.

Lemma unique_tail : forall (rest : dict) kv,
  (forall k, count_key k (kv :: rest) <= 1) ->
  forall k, count_key k rest <= 1.
Proof.
  intros rest [k1 v1] U k. specialize (U k).
  rewrite count_key_cons in U. lia.
Qed.

Lemma run_items_reports : forall items (st : state World),
  (forall k, count_key k items <= 1) ->
  forall name url,
    In (name, url) items ->
    (exists e, In (DownloadFailed name url e)
                 (new_events st (run_items items st)))
    \/ exists content available_links unavailable_links,
         read_file (playlist_path name) (files (run_items items st))
         = Some content
         /\ read_file (available_path name) (files (run_items items st))
            = Some (join [LF] available_links)
         /\ read_file (unavailable_path name) (files (run_items items st))
            = Some (join [LF] unavailable_links)
         /\ stable_partition (parsed_entries content)
              available_links unavailable_links.
Proof.
  induction items as [|[n0 u0] rest IH]; intros st U name url H.
  - contradiction.
  - pose proof (@unique_tail _ _ U) as U'.
    assert (T : forall st1 block,
               log st1 = block ++ log st ->
               In (name, url) rest ->
               (exists e, In (DownloadFailed name url e)
                            (new_events st (run_items rest st1)))
               \/ exists content available_links unavailable_links,
                    read_file (playlist_path name)
                      (files (run_items rest st1)) = Some content
                    /\ read_file (available_path name)
                         (files (run_items rest st1))
                       = Some (join [LF] available_links)
                    /\ read_file (unavailable_path name)
                         (files (run_items rest st1))
                       = Some (join [LF] unavailable_links)
                    /\ stable_partition (parsed_entries content)
                         available_links unavailable_links).
    { intros st1 block L Hin.
      destruct (IH st1 U' name url Hin) as [[e F]|R]; [|right; exact R].
      left. exists e.
      destruct (run_items_effect requests_get requests_head rest st1)
        as (evs & L1 & _).
      rewrite (@new_events_app _ _ _ _ L1) in F.
      assert (L2 : log (run_items rest st1) = (evs ++ block) ++ log st)
        by (rewrite L1, L, app_assoc; reflexivity).
      rewrite (@new_events_app _ _ _ _ L2). apply in_or_app. left.
      exact F. }
    simpl.
    destruct (download_effect requests_get n0 u0 st)
      as [_ [(e & R & L & F)|(content & R & L & F)]];
      destruct (download n0 u0 st) as [r st1]; simpl in R, L, F; subst r.
    + simpl. destruct H as [H|H].
      * inversion H; subst. left. exists e.
        destruct (run_items_effect requests_get requests_head rest st1)
          as (evs & L1 & _).
        assert (L2 : log (run_items rest st1)
                     = (evs ++ [DownloadFailed name url e;
                                Downloading name url]) ++ log st)
          by (rewrite L1, L, <- app_assoc; reflexivity).
        rewrite (@new_events_app _ _ _ _ L2). apply in_or_app. right.
        left. reflexivity.
      * apply (T st1 [DownloadFailed n0 u0 e; Downloading n0 u0]);
          [exact L|exact H].
    + rewrite playlist_path_truthy. fold (playlist_path n0) in *.
      assert (Rd : read_file (playlist_path n0) (files st1) = Some content).
      { rewrite F. unfold read_file. simpl. rewrite str_eqb_refl.
        reflexivity. }
      destruct H as [H|H].
      * inversion H; subst. right.
        set (st2 := process name (playlist_path name) st1).
        assert (K : forall p,
                   p = playlist_path name \/ p = available_path name
                   \/ p = unavailable_path name ->
                   read_file p (files (run_items rest st2))
                   = read_file p (files st2)).
        { intros p Hp. apply run_items_frame. intros n u Hn.
          pose proof (@other_names _ _ _ _ _ U Hn) as Ne.
          destruct Hp as [-> | [-> | ->]].
          - split; [intro E; apply playlist_path_injective in E;
                    congruence|].
            split; [apply playlist_is_not_available
                   |apply playlist_is_not_unavailable].
          - split; [intro E; symmetry in E;
                    exact (@playlist_is_not_available _ _ E)|].
            split; [intro E; apply available_path_injective in E;
                    congruence|apply available_is_not_unavailable].
          - split; [intro E; symmetry in E;
                    exact (@playlist_is_not_unavailable _ _ E)|].
            split; [intro E; symmetry in E;
                    exact (@available_is_not_unavailable _ _ E)|].
            intro E. apply unavailable_path_injective in E. congruence. }
        rewrite !K by tauto. subst st2.
        exists content.
        rewrite (process_frame requests_head)
          by (apply playlist_is_not_available
              || apply playlist_is_not_unavailable).
        unfold process_m3u_file. simpl files. rewrite Rd.
        destruct (loop_partitions requests_head (readlines content)
                    [] [] [] (logging (Processing (playlist_path name)) st1))
          as (a & u & E & P).
        destruct (loop (readlines content) [] [] []
                    (logging (Processing (playlist_path name)) st1))
          as [[av un] st3].
        simpl in E. inversion E; subst av un.
        exists a, u. simpl files. unfold read_file. simpl dict_get.
        rewrite !str_eqb_refl.
        split; [reflexivity|]. split; [reflexivity|].
        split; [reflexivity|exact P].
      * destruct (process_effect requests_head n0 (playlist_path n0) st1 Rd)
          as (probes & L2 & _).
        apply (T (process n0 (playlist_path n0) st1)
                 (SavedUnavailable n0 (unavailable_path n0)
                    :: SavedAvailable n0 (available_path n0)
                    :: probes ++ [Processing (playlist_path n0);
                                  SavedPlaylist (playlist_path n0);
                                  Downloading n0 u0])); [|exact H].
        rewrite L2, L. simpl. rewrite <- app_assoc. reflexivity.
Qed.


Lemma loop_events_failures : forall items evs,
  loop_events items evs ->
  length (filter is_download_failure evs) <= length items.
Proof.
  intros items evs E. pose proof (loop_events_count E). lia.
Qed.


End OrchestratorMore.

(** ** Reading a partition file back *)

Lemma readlines_from_line : forall x cur rest,
  ~ In LF x -> ~ In CR x ->
  readlines_from cur (x ++ LF :: rest)
  = (rev cur ++ x ++ [LF]) :: readlines_from [] rest.
Proof.
  induction x as [|a x IH]; intros cur rest Hl Hc.
  - simpl. reflexivity.
  - simpl app. cbn [readlines_from].
    destruct (N.eqb_spec a LF) as [E|_];
      [exfalso; apply Hl; left; exact E|].
    destruct (N.eqb_spec a CR) as [E|_];
      [exfalso; apply Hc; left; exact E|].
    rewrite IH by (intro F; first [apply Hl; right; exact F|apply Hc; right; exact F]).
    simpl. rewrite <- app_assoc. reflexivity.
Qed.

Lemma readlines_from_last : forall x cur,
  ~ In LF x -> ~ In CR x -> x <> [] ->
  readlines_from cur x = [rev cur ++ x].
Proof.
  induction x as [|a x IH]; intros cur Hl Hc Hn.
  - congruence.
  - cbn [readlines_from].
    destruct (N.eqb_spec a LF) as [E|_];
      [exfalso; apply Hl; left; exact E|].
    destruct (N.eqb_spec a CR) as [E|_];
      [exfalso; apply Hc; left; exact E|].
    destruct x as [|b x].
    + simpl. reflexivity.
    + rewrite IH; try discriminate;
        try (intro F; first [apply Hl; right; exact F|apply Hc; right; exact F]).
      simpl. rewrite <- app_assoc. reflexivity.
Qed.

Lemma strip_with_line_feed : forall x r,
  startswith (x :: nil) r = true -> is_space x = false ->
  strip r = r -> strip (r ++ [LF]) = r.
Proof.
  intros x r H S E. apply startswith_sound in H. destruct H as [t ->].
  change ([x] ++ t) with (x :: t) in *. unfold strip, rstrip in *.
  assert (L1 : lstrip (x :: t) = x :: t)
    by (simpl; rewrite S; reflexivity).
  assert (L2 : lstrip ((x :: t) ++ [LF]) = (x :: t) ++ [LF])
    by (simpl; rewrite S; reflexivity).
  rewrite L1 in E. rewrite L2, rev_app_distr.
  change (rev [LF] ++ rev (x :: t)) with (LF :: rev (x :: t)).
  change (lstrip (LF :: rev (x :: t))) with (lstrip (rev (x :: t))).
  exact E.
Qed.

Lemma strip_plain_metadata : forall m,
  startswith (lit "#EXTINF") m = true -> strip m = m ->
  strip (m ++ [LF]) = m.
Proof.
  intros m H E. apply (@strip_with_line_feed 35%N); [|reflexivity|exact E].
  apply startswith_sound in H. destruct H as [t ->]. reflexivity.
Qed.

Lemma strip_plain_url : forall u,
  startswith (lit "http") u = true -> strip u = u ->
  strip (u ++ [LF]) = u.
Proof.
  intros u H E. apply (@strip_with_line_feed 104%N); [|reflexivity|exact E].
  apply startswith_sound in H. destruct H as [t ->]. reflexivity.
Qed.

Lemma nonempty_prefixed : forall p r,
  p <> [] -> startswith p r = true -> r <> [].
Proof.
  intros p r Hp H E. subst r. destruct p; [congruence|discriminate].
Qed.

Lemma entries_parse_back :
  forall es : list (str * str),
    Forall paired_entry es ->
    parsed_entries (join [LF] (map (fun e => entry (fst e) (snd e)) es))
    = map (fun e => entry (fst e) (snd e)) es.
Proof.
  intros es H. unfold parsed_entries, readlines.
  assert (G : forall m0,
             entries_from m0
               (readlines_from []
                  (join [LF] (map (fun e => entry (fst e) (snd e)) es)))
             = map (fun e => entry (fst e) (snd e)) es);
    [|apply G].
  induction H as [|[m u] es Hp _ IH]; intro m0.
  - reflexivity.
  - destruct Hp as (Hm & Hu & (Sm & Lm & Cm) & (Su & Lu & Cu)).
    simpl in Hm, Hu, Sm, Lm, Cm, Su, Lu, Cu.
    assert (Step : forall tail,
               entries_from m0 ((m ++ [LF]) :: tail)
               = entries_from m tail).
    { intro tail. simpl. rewrite (strip_plain_metadata Hm Sm), Hm.
      reflexivity. }
    destruct es as [|e2 es].
    + simpl map. simpl join. unfold entry.
      rewrite readlines_from_line by assumption.
      rewrite readlines_from_last
        by first [assumption
                 |apply (@nonempty_prefixed (lit "http") u);
                  [discriminate|exact Hu]].
      simpl rev. simpl app. rewrite Step. simpl.
      rewrite Su, (http_is_not_extinf _ Hu), Hu. reflexivity.
    + change (join [LF] (map (fun e => entry (fst e) (snd e))
                           ((m, u) :: e2 :: es)))
        with (entry m u ++ [LF]
                ++ join [LF] (map (fun e => entry (fst e) (snd e))
                                (e2 :: es))).
      unfold entry at 1. rewrite <- app_assoc. simpl app.
      rewrite readlines_from_line by assumption.
      rewrite readlines_from_line by assumption.
      simpl rev. simpl app. rewrite Step.
      cbn [entries_from]. rewrite (strip_plain_url Hu Su).
      rewrite (http_is_not_extinf _ Hu), Hu.
      cbv zeta. rewrite IH. reflexivity.
Qed.


Lemma lstrip_snoc : forall s a,
  lstrip (s ++ [a])
  = match lstrip s with
    | [] => if is_space a then [] else [a]
    | y => y ++ [a]
    end.
Proof.
  induction s as [|b s IH]; intro a; simpl.
  - destruct (is_space a); reflexivity.
  - destruct (is_space b); [apply IH|reflexivity].
Qed.

Lemma rstrip_cons : forall a s,
  rstrip (a :: s)
  = match rstrip s with
    | [] => if is_space a then [] else [a]
    | y => a :: y
    end.
Proof.
  intros a s. unfold rstrip. simpl rev. rewrite lstrip_snoc.
  destruct (lstrip (rev s)) as [|b t] eqn:E.
  - simpl. destruct (is_space a); reflexivity.
  - rewrite rev_app_distr. simpl.
    destruct (rev t ++ [b]) eqn:F; [|reflexivity].
    destruct (rev t); discriminate.
Qed.

Lemma lstrip_fixed : forall s,
  match s with [] => True | a :: _ => is_space a = false end ->
  lstrip s = s.
Proof.
  intros [|a s] H; simpl; [reflexivity|]. rewrite H. reflexivity.
Qed.

Lemma lstrip_idempotent : forall s, lstrip (lstrip s) = lstrip s.
Proof.
  intro s. apply lstrip_fixed. destruct (lstrip s) as [|a t] eqn:E.
  - exact I.
  - eapply lstrip_head. exact E.
Qed.

Lemma rstrip_idempotent : forall s, rstrip (rstrip s) = rstrip s.
Proof.
  intro s. unfold rstrip. rewrite rev_involutive, lstrip_idempotent.
  reflexivity.
Qed.

Lemma lstrip_rstrip : forall s, lstrip (rstrip s) = rstrip (lstrip s).
Proof.
  induction s as [|a s IH].
  - reflexivity.
  - rewrite rstrip_cons. simpl lstrip at 2.
    destruct (is_space a) eqn:E.
    + destruct (rstrip s) as [|b t] eqn:F.
      * rewrite <- IH. reflexivity.
      * simpl. rewrite E. exact IH.
    + rewrite rstrip_cons.
      destruct (rstrip s) as [|b t]; simpl; rewrite E; reflexivity.
Qed.

Lemma strip_idempotent : forall s, strip (strip s) = strip s.
Proof.
  intro s. unfold strip. rewrite lstrip_rstrip, lstrip_idempotent.
  apply rstrip_idempotent.
Qed.

Lemma strip_snoc_space : forall s c,
  is_space c = true -> strip (s ++ [c]) = strip s.
Proof.
  intros s c H. unfold strip. rewrite lstrip_snoc, H.
  destruct (lstrip s) as [|a t]; [reflexivity|].
  unfold rstrip. rewrite rev_app_distr. simpl rev at 1. simpl app at 1.
  simpl lstrip at 1. rewrite H. reflexivity.
Qed.

Lemma readlines_from_lines : forall n s cur,
  length s <= n -> ~ In LF cur -> ~ In CR cur ->
  forall l, In l (readlines_from cur s) ->
    exists x, (l = x ++ [LF] \/ l = x) /\ ~ In LF x /\ ~ In CR x.
Proof.
  induction n as [|n IH]; intros s cur Hn Hl Hc l H.
  - destruct s; [|simpl in Hn; lia]. simpl in H.
    destruct cur as [|c cur]; [contradiction|].
    destruct H as [<-|[]]. exists (rev (c :: cur)).
    split; [right; reflexivity|].
    split; intro F; apply in_rev in F; contradiction.
  - destruct s as [|c s].
    + simpl in H. destruct cur as [|c cur]; [contradiction|].
      destruct H as [<-|[]]. exists (rev (c :: cur)).
      split; [right; reflexivity|].
      split; intro F; apply in_rev in F; contradiction.
    + assert (First : exists x,
                 (rev (LF :: cur) = x ++ [LF] \/ rev (LF :: cur) = x)
                 /\ ~ In LF x /\ ~ In CR x).
      { exists (rev cur). split; [left; reflexivity|].
        split; intro F; apply in_rev in F; contradiction. }
      assert (Nil : forall t, length t <= n ->
                 In l (readlines_from [] t) ->
                 exists x, (l = x ++ [LF] \/ l = x)
                           /\ ~ In LF x /\ ~ In CR x).
      { intros t Ht Hin. apply (IH t [] Ht); auto. }
      cbn [length] in Hn. cbn [readlines_from] in H.
      destruct (N.eqb_spec c LF) as [E|E].
      * destruct H as [<-|H]; [exact First|]. apply (Nil s); [lia|exact H].
      * destruct (N.eqb_spec c CR) as [E2|E2].
        -- destruct s as [|c2 s].
           ++ destruct H as [<-|[]]. exact First.
           ++ cbn [length] in Hn. destruct (N.eqb c2 LF).
              ** destruct H as [<-|H]; [exact First|].
                 apply (Nil s); [lia|exact H].
              ** destruct H as [<-|H]; [exact First|].
                 apply (Nil (c2 :: s)); [cbn [length]; lia|exact H].
        -- apply (IH s (c :: cur)); [lia| | |exact H].
           ++ intros [F|F]; [congruence|contradiction].
           ++ intros [F|F]; [congruence|contradiction].
Qed.

Lemma stripped_line_is_plain : forall l x,
  l = x ++ [LF] \/ l = x -> ~ In LF x -> ~ In CR x ->
  plain_line (strip l).
Proof.
  intros l x H Hl Hc.
  assert (E : strip l = strip x).
  { destruct H as [-> | ->]; [|reflexivity].
    apply strip_snoc_space. reflexivity. }
  unfold plain_line. rewrite strip_idempotent, E.
  split; [reflexivity|].
  split; intro F; apply strip_in in F; contradiction.
Qed.

Lemma entries_shape : forall lines m,
  (forall l, In l lines ->
     exists x, (l = x ++ [LF] \/ l = x) /\ ~ In LF x /\ ~ In CR x) ->
  m = [] \/ (startswith (lit "#EXTINF") m = true /\ plain_line m) ->
  forall e, In e (entries_from m lines) ->
    exists m' u,
      e = entry m' u
      /\ (m' = [] \/ (startswith (lit "#EXTINF") m' = true /\ plain_line m'))
      /\ startswith (lit "http") u = true /\ plain_line u.
Proof.
  induction lines as [|raw rest IH]; intros m L M e H.
  - contradiction.
  - assert (L' : forall l, In l rest ->
                   exists x, (l = x ++ [LF] \/ l = x)
                             /\ ~ In LF x /\ ~ In CR x)
      by (intros l Hl; apply L; right; exact Hl).
    destruct (L raw (or_introl eq_refl)) as (x & Hx & Hl & Hc).
    pose proof (stripped_line_is_plain Hx Hl Hc) as P.
    simpl in H.
    destruct (startswith (lit "#EXTINF") (strip raw)) eqn:E1.
    + apply (IH (strip raw)); auto.
    + destruct (startswith (lit "http") (strip raw)) eqn:E2.
      * destruct H as [<-|H]; [|apply (IH m); auto].
        exists m, (strip raw). auto.
      * apply (IH m); auto.
Qed.

Lemma stable_partition_in : forall (A : Type) (l a u : list A),
  stable_partition l a u ->
  forall x, In x a \/ In x u -> In x l.
Proof.
  induction 1 as [|y l a u _ IH|y l a u _ IH]; intros x H; simpl in *.
  - tauto.
  - destruct H as [[H|H]|H]; auto.
  - destruct H as [H|[H|H]]; auto.
Qed.

Lemma part_parses_back : forall content part,
  (forall e, In e part -> In e (parsed_entries content)) ->
  (forall e, In e part -> startswith (lit "#EXTINF") e = true) ->
  parsed_entries (join [LF] part) = part.
Proof.
  intros content part Hin Hm.
  assert (S : forall e, In e part ->
             exists m u, e = entry m u /\ paired_entry (m, u)).
  { intros e He.
    destruct (@entries_shape (readlines content) []
                (fun l Hl => @readlines_from_lines (length content) content
                               [] (le_n _) (fun F => F) (fun F => F) l Hl)
                (or_introl eq_refl) e (Hin e He))
      as (m & u & -> & [->|[M1 M2]] & U1 & U2).
    - specialize (Hm _ He). discriminate.
    - exists m, u. split; [reflexivity|]. repeat split; try assumption;
        try apply M2; apply U2. }
  assert (G : exists es,
             part = map (fun e => entry (fst e) (snd e)) es
             /\ Forall paired_entry es).
  { clear Hin Hm. induction part as [|e part IH].
    - exists []. split; constructor.
    - destruct (S e (or_introl eq_refl)) as (m & u & -> & P).
      destruct IH as (es & -> & F);
        [intros e' He'; apply S; right; exact He'|].
      exists ((m, u) :: es). split; [reflexivity|].
      constructor; assumption. }
  destruct G as (es & -> & F). apply entries_parse_back. exact F.
Qed.

Section ReadingBack.

Variable World : Type.
Variable requests_head : str -> World -> reply * World.


End ReadingBack.

(** ** Where a run writes *)

Section WhereARunWrites.

Variable unicode_alnum : char -> bool.
Variable World : Type.
Variable requests_get : str -> World -> reply * World.
Variable requests_head : str -> World -> reply * World.

Local Abbreviation clean := (clean_category_name unicode_alnum).
Local Abbreviation run_items :=
  (download_and_process requests_get requests_head).
Local Abbreviation extract := (extract_m3u_links_with_names unicode_alnum).
Local Abbreviation fetch := (fetch_readme requests_get).
Local Abbreviation run := (main unicode_alnum requests_get requests_head).

Lemma clean_playlist_path : forall name,
  playlist_path (clean name) = lit "m3u_files/" ++ clean name ++ lit ".m3u".
Proof.
  intro name. apply playlist_path_relative.
  destruct (clean name) as [|c s] eqn:E; [reflexivity|].
  assert (W : word unicode_alnum c = true).
  { apply (clean_chars unicode_alnum name). rewrite E. left. reflexivity. }
  change (lit "/") with [47%N].
  change ((c :: s) ++ lit ".m3u") with (c :: s ++ lit ".m3u").
  rewrite startswith_one.
  destruct (N.eqb_spec 47 c) as [<-|_]; [discriminate|reflexivity].
Qed.

Lemma mapping_names_are_clean : forall doc (st : state World) name url,
  In (name, url) (fst (extract doc st)) -> exists n, name = clean n.
Proof.
  intros doc st name url H. rewrite extract_links in H.
  apply in_dict_get in H; [|intro k; apply links_unique].
  rewrite links_of_matches_fold in H.
  apply (fold_add_origin unicode_alnum) in H.
  destruct H as [(n & _ & E)|H]; [|discriminate].
  exists n. symmetry. exact E.
Qed.


End WhereARunWrites.
(** ** The further properties at work on the sample world *)



Lemma normalized_name_is_a_plain_file_name_witness :
  In 83%N (clean_category_name Sample.alnum_table
             (lit " Some &nbsp; Name! "))
  /\ is_space 83%N = false
  /\ playlist_path (clean_category_name Sample.alnum_table
                      (lit " Some &nbsp; Name! "))
     = lit "m3u_files/Some_Name.m3u".
Proof.
  assert (H : In 83%N (clean_category_name Sample.alnum_table
                         (lit " Some &nbsp; Name! ")))
    by (left; reflexivity).
  split; [exact H|].
  destruct (normalized_name_is_a_plain_file_name Sample.alnum_table
              (lit " Some &nbsp; Name! ")) as [A P].
  split; [apply (A 83%N H)|exact P].
Defined.

Lemma mapping_holds_the_record_names_witness :
  dict_get (lit "Kids")
    (fst (extract_m3u_links_with_names Sample.alnum_table
            Sample.index_document Sample.start)) = Some Sample.kids_url
  /\ exists n, In (n, Sample.kids_url)
                 (findall m3u_pattern Sample.index_document)
               /\ clean_category_name Sample.alnum_table n = lit "Kids".
Proof.
  assert (H : dict_get (lit "Kids")
                (fst (extract_m3u_links_with_names Sample.alnum_table
                        Sample.index_document Sample.start))
              = Some Sample.kids_url) by reflexivity.
  split; [exact H|].
  apply (proj2 (@mapping_holds_the_record_names Sample.alnum_table nat
                  Sample.index_document Sample.start (lit "Kids"))
           Sample.kids_url H).
Defined.

Lemma records_lie_on_one_line_witness :
  In (lit "News", Sample.news_url)
    (findall m3u_pattern Sample.index_document)
  /\ ~ In LF (lit "News") /\ ~ In LF Sample.news_url.
Proof.
  assert (H : In (lit "News", Sample.news_url)
                (findall m3u_pattern Sample.index_document))
    by (vm_compute; left; reflexivity).
  split; [exact H|].
  destruct (@records_lie_on_one_line Sample.index_document (lit "News")
              Sample.news_url H) as (_ & A & B & _).
  split; [exact A|exact B].
Defined.

Lemma lines_after_the_last_url_add_nothing_witness :
  (forall l, In l [lit "#EXTINF:-1,Channel D"; lit ""] ->
             startswith (lit "http") (strip l) = false)
  /\ check_lines Sample.sample_head
       ([lit "#EXTINF:-1,Channel A"; lit "http://a.test/1"]
          ++ [lit "#EXTINF:-1,Channel D"; lit ""])
       [] [] [] Sample.start
     = check_lines Sample.sample_head
         [lit "#EXTINF:-1,Channel A"; lit "http://a.test/1"]
         [] [] [] Sample.start.
Proof.
  assert (H : forall l, In l [lit "#EXTINF:-1,Channel D"; lit ""] ->
                startswith (lit "http") (strip l) = false).
  { intros l [<-|[<-|[]]]; reflexivity. }
  split; [exact H|].
  apply (@lines_after_the_last_url_add_nothing nat Sample.sample_head
           [lit "#EXTINF:-1,Channel A"; lit "http://a.test/1"]
           [lit "#EXTINF:-1,Channel D"; lit ""] [] [] [] Sample.start H).
Defined.

Lemma metadata_line_overwrites_pending_metadata_witness :
  (forall l, In l [lit "#EXTINF:-1,Lost"; lit "# a comment"] ->
             startswith (lit "http") (strip l) = false)
  /\ startswith (lit "#EXTINF") (strip (lit "#EXTINF:-1,Channel A")) = true
  /\ check_lines Sample.sample_head
       ([lit "#EXTM3U"] ++ [lit "#EXTINF:-1,Lost"; lit "# a comment"]
          ++ lit "#EXTINF:-1,Channel A" :: [lit "http://a.test/1"])
       [] [] [] Sample.start
     = check_lines Sample.sample_head
         ([lit "#EXTM3U"]
            ++ lit "#EXTINF:-1,Channel A" :: [lit "http://a.test/1"])
         [] [] [] Sample.start.
Proof.
  assert (H : forall l, In l [lit "#EXTINF:-1,Lost"; lit "# a comment"] ->
                startswith (lit "http") (strip l) = false).
  { intros l [<-|[<-|[]]]; reflexivity. }
  split; [exact H|]. split; [reflexivity|].
  apply (@metadata_line_overwrites_pending_metadata nat Sample.sample_head
           [lit "#EXTM3U"] [lit "#EXTINF:-1,Lost"; lit "# a comment"]
           (lit "#EXTINF:-1,Channel A") [lit "http://a.test/1"]
           [] [] [] Sample.start H eq_refl).
Defined.

Lemma other_lines_are_ignored_witness :
  startswith (lit "#EXTINF") (strip (lit "#EXTVLCOPT:x")) = false
  /\ startswith (lit "http") (strip (lit "#EXTVLCOPT:x")) = false
  /\ check_lines Sample.sample_head
       ([lit "#EXTINF:-1,Channel A"] ++ lit "#EXTVLCOPT:x"
          :: [lit "http://a.test/1"]) [] [] [] Sample.start
     = check_lines Sample.sample_head
         ([lit "#EXTINF:-1,Channel A"] ++ [lit "http://a.test/1"])
         [] [] [] Sample.start.
Proof.
  split; [reflexivity|]. split; [reflexivity|].
  apply (@other_lines_are_ignored nat Sample.sample_head
           [lit "#EXTINF:-1,Channel A"] (lit "#EXTVLCOPT:x")
           [lit "http://a.test/1"] [] [] [] Sample.start
           eq_refl eq_refl).
Defined.











Lemma mapping_keeps_first_occurrence_order_witness :
  findall m3u_pattern Sample.duplicate_document <> []
  /\ map fst (fst (extract_m3u_links_with_names Sample.alnum_table
                     Sample.duplicate_document Sample.start))
     = [lit "News"]
  /\ fst (extract_m3u_links_with_names Sample.alnum_table
            Sample.duplicate_document Sample.start) <> [].
Proof.
  assert (H : findall m3u_pattern Sample.duplicate_document <> [])
    by (vm_compute; discriminate).
  destruct (@mapping_keeps_first_occurrence_order Sample.alnum_table nat
              Sample.duplicate_document Sample.start) as (O & _ & E).
  split; [exact H|]. split; [rewrite O; vm_compute; reflexivity|].
  intro F. apply H. apply (proj1 E). exact F.
Defined.
